(** * bot.py: the voice/text calendar assistant, embedded and verified

    The program is a thin orchestration layer around four external
    services (chat transport, speech recognition, a generative language
    model, a remote calendar) and the local file system.  Every external
    call is an oracle of an environment [Env]; the program itself is a
    computation in a state-and-exception monad over an explicit [World].
    Python's [try]/[except]/[finally] are combinators of that monad. *)

From Stdlib Require Import ZArith String Ascii List Lia.
From stdpp Require Import base option list gmap strings pretty.

Open Scope string_scope.
Open Scope list_scope.

#[local] Set Warnings "-clear-no-such-hyp".

(** ** Python helpers *)

Module Py.

(** [str(x)] inside an f-string, for a value that may be [None]. *)
Definition format_opt (o : option string) : string := default "None" o.

(** [os.path.join(dir, name)] for a relative [name]. *)
Definition path_join (dir name : string) : string := dir +:+ "/" +:+ name.

(** Truthiness of a list that may be [None]. *)
Definition truthy_list {A} (o : option (list A)) : bool :=
  match o with
  | Some (_ :: _) => true
  | _ => false
  end.

End Py.

(** ** A text runtime for the sample runs

    [str.strip] and [str.lower] belong to the Python runtime; the program
    takes them from the environment.  The sample environments below use
    this instance, which is what the two functions do on ASCII text (the
    sample texts are ASCII). *)

Module AsciiRuntime.

(** [str.isspace] on ASCII: TAB..CR, FS..US and the blank. *)
Definition isspace (c : ascii) : bool :=
  let n := N_of_ascii c in
  ((9 <=? n) && (n <=? 13) || (28 <=? n) && (n <=? 32))%N.

Fixpoint lstrip (s : string) : string :=
  match s with
  | EmptyString => EmptyString
  | String c s' => if isspace c then lstrip s' else s
  end.

Fixpoint rstrip (s : string) : string :=
  match s with
  | EmptyString => EmptyString
  | String c s' =>
      match rstrip s' with
      | EmptyString => if isspace c then EmptyString else String c EmptyString
      | r => String c r
      end
  end.

Definition strip (s : string) : string := rstrip (lstrip s).

Definition lower_char (c : ascii) : ascii :=
  let n := N_of_ascii c in
  if ((65 <=? n) && (n <=? 90))%N then ascii_of_N (n + 32) else c.

Fixpoint lower (s : string) : string :=
  match s with
  | EmptyString => EmptyString
  | String c s' => String (lower_char c) (lower s')
  end.

End AsciiRuntime.

(** ** Exceptions

    The subclasses of [Exception] the program can meet.  Two of them are
    named by the source ([except sr.UnknownValueError], [except
    sr.RequestError]); [KeyError] is what indexing a dict with a missing
    key raises; everything else is [OtherError]. *)

Inductive exn : Type :=
| UnknownValueError
| RequestError
| KeyError (key : string)
| OtherError (what : string).

Definition result (A : Type) : Type := exn + A.

(** ** The monad: state [S], exceptions [exn] *)

Definition M (S A : Type) : Type := S -> result A * S.

Definition ret {S A} (a : A) : M S A := fun s => (inr a, s).

Definition raise {S A} (e : exn) : M S A := fun s => (inl e, s).

Definition bind {S A B} (m : M S A) (k : A -> M S B) : M S B :=
  fun s =>
    match m s with
    | (inl e, s') => (inl e, s')
    | (inr a, s') => k a s'
    end.

(** [try: m  except Exception as e: h e] *)
Definition try_except {S A} (m : M S A) (h : exn -> M S A) : M S A :=
  fun s =>
    match m s with
    | (inl e, s') => h e s'
    | (inr a, s') => (inr a, s')
    end.

(** [try: m  finally: c]: [c] runs on every exit of [m]; an exception of
    [c] replaces the outcome of [m]. *)
Definition try_finally {S A} (m : M S A) (c : M S unit) : M S A :=
  fun s =>
    match m s with
    | (r, s1) =>
        match c s1 with
        | (inl e, s2) => (inl e, s2)
        | (inr _, s2) => (r, s2)
        end
    end.

Definition modify {S} (f : S -> S) : M S unit := fun s => (inr tt, f s).

(** Run a computation on the second component of a pair of states. *)
Definition lift_snd {F S A} (m : M S A) : M (F * S) A :=
  fun fs =>
    match m (snd fs) with
    | (r, s') => (r, (fst fs, s'))
    end.

Declare Scope py_scope.
Delimit Scope py_scope with py.
Notation "x <- m ;; k" := (bind m (fun x => k))
  (at level 100, m at next level, right associativity) : py_scope.
Notation "m ;; k" := (bind m (fun _ => k))
  (at level 100, right associativity) : py_scope.
Open Scope py_scope.

(** ** Data *)

(** The text [t.isoformat() + 'Z'] of the naive UTC datetime [t], counted
    in microseconds since the epoch. *)
Inductive timestr : Type := IsoZ (t : Z).

Definition usec_per_hour : Z := 3600 * 1000000.
Definition timedelta_hours (h : Z) : Z := h * usec_per_hour.
Definition timedelta_days (d : Z) : Z := d * 24 * usec_per_hour.

(** [update]: the fields of the inbound chat event the handlers read. *)
Record Update : Type := mkUpdate {
  from_user_id : Z;          (* update.message.from_user.id *)
  message_text : string;     (* update.message.text *)
  message_voice : string     (* update.message.voice, as its file id *)
}.

(** An event record of a list response: the keys the program reads. *)
Record event_start : Type := mkStart {
  st_dateTime : option string;
  st_date : option string
}.

Record event : Type := mkEvent {
  ev_start : option event_start;
  ev_summary : option string
}.

(** [events_result]: the dict a list request answers with. *)
Record list_response : Type := mkListResponse {
  items : option (list event)
}.

(** The request body [create_event] builds. *)
Record body_time : Type := mkBodyTime {
  bt_dateTime : timestr;
  bt_timeZone : string
}.

Record attendee : Type := mkAttendee { email : string }.

Record event_body : Type := mkBody {
  body_summary : string;
  body_start : body_time;
  body_end : body_time;
  body_attendees : list attendee
}.

(** The record an insert request answers with. *)
Record created_event : Type := mkCreated {
  htmlLink : option string;
  created_body : event_body
}.

(** Requests issued to the remote calendar. *)
Inductive cal_request : Type :=
| ReqList (calendarId : string) (timeMin timeMax : timestr)
          (singleEvents : bool) (orderBy : string)
| ReqInsert (calendarId : string) (body : event_body)
| ReqDelete (calendarId : string) (eventId : string).

(** OAuth credentials: the three attributes [authenticate_google_calendar]
    tests. *)
Record creds : Type := mkCreds {
  valid : bool;
  expired : bool;
  refresh_token : option string
}.

(** The authenticated client returned by [build]. *)
Record Service : Type := mkService { service_creds : creds }.

Inductive log_record : Type :=
| LogEventCreated (link : option string)
| LogEventDeleted (event_id : string)
| LogError (e : exn).

(** ** The world *)

Record World : Type := mkWorld {
  fs : gset string;              (* paths that exist in local storage *)
  clock_reads : nat;             (* readings of the clock so far *)
  outbox : list string;          (* replies delivered, oldest first *)
  cal_log : list cal_request;    (* calendar requests issued, oldest first *)
  logs : list log_record         (* logger output, oldest first *)
}.

Definition set_fs (f : gset string -> gset string) (w : World) : World :=
  mkWorld (f (fs w)) (clock_reads w) (outbox w) (cal_log w) (logs w).
Definition tick_clock (w : World) : World :=
  mkWorld (fs w) (S (clock_reads w)) (outbox w) (cal_log w) (logs w).
Definition push_outbox (msg : string) (w : World) : World :=
  mkWorld (fs w) (clock_reads w) (outbox w ++ [msg]) (cal_log w) (logs w).
Definition push_cal (r : cal_request) (w : World) : World :=
  mkWorld (fs w) (clock_reads w) (outbox w) (cal_log w ++ [r]) (logs w).
Definition push_log (l : log_record) (w : World) : World :=
  mkWorld (fs w) (clock_reads w) (outbox w) (cal_log w) (logs w ++ [l]).

(** Outcome of an external call that writes a file: success writes it; a
    failure may or may not leave a partial file behind. *)
Inductive io_outcome : Type :=
| IoOk
| IoFailClean (e : exn)
| IoFailPartial (e : exn).

(** ** The environment: one oracle per external call

    Each oracle sees the world at the time of the call. *)
Record Env : Type := mkEnv {
  (* datetime.utcnow(): the k-th reading of the clock *)
  utcnow : nat -> Z;
  (* the runtime's str.strip and str.lower *)
  str_strip : string -> string;
  str_lower : string -> string;
  (* os.remove on a path that exists: the exception it raises, if any *)
  os_remove_error : World -> string -> option exn;
  (* open(path, 'w') and the write that follows *)
  open_for_write : World -> string -> io_outcome;
  (* telegram *)
  tg_get_file : World -> string -> result string;
  tg_download_to_drive : World -> string -> string -> io_outcome;
  tg_reply_text : World -> string -> option exn;
  (* pydub *)
  AudioSegment_from_file : World -> string -> string -> result string;
  AudioSegment_export : World -> string -> string -> string -> io_outcome;
  (* speech_recognition *)
  sr_record : World -> string -> result string;
  sr_recognize_google : World -> string -> result string;
  (* google.generativeai: the text of the model's response to a prompt *)
  model_generate_content : World -> string -> result string;
  (* google oauth and discovery *)
  Credentials_from_authorized_user_file :
    World -> string -> list string -> result creds;
  creds_refresh : World -> creds -> result creds;
  InstalledAppFlow_from_client_secrets_file :
    World -> string -> list string -> result string;
  flow_run_local_server : World -> string -> Z -> result creds;
  build : World -> string -> string -> creds -> result Service;
  (* calendar requests, executed *)
  events_list_execute : World -> Service -> cal_request -> result list_response;
  events_insert_execute : World -> Service -> cal_request -> result created_event;
  events_delete_execute : World -> Service -> cal_request -> option exn
}.

(** ** Primitive computations *)

Definition call {A} (o : World -> result A) : M World A :=
  fun w => (o w, w).

Definition call_unit (o : World -> option exn) : M World unit :=
  fun w => match o w with
           | Some e => (inl e, w)
           | None => (inr tt, w)
           end.

(** An external call that writes [path]. *)
Definition call_write (o : World -> io_outcome) (path : string) : M World unit :=
  fun w =>
    match o w with
    | IoOk => (inr tt, set_fs (fun f => {[path]} ∪ f) w)
    | IoFailClean e => (inl e, w)
    | IoFailPartial e => (inl e, set_fs (fun f => {[path]} ∪ f) w)
    end.

Definition os_path_exists (path : string) : M World bool :=
  fun w => (inr (bool_decide (path ∈ fs w)), w).

Definition logger (l : log_record) : M World unit := modify (push_log l).

(** ** The program *)

Definition SCOPES : list string := ["https://www.googleapis.com/auth/calendar"].
Definition CREDENTIALS_FILE : string := "credentials.json".

(** The fixed texts of the replies. *)
Definition MSG_ERROR : string := "An error occurred while processing your request.".
Definition MSG_NO_EVENTS : string := "No events found for today.".
Definition MSG_CREATED : string := "Event created successfully.".
Definition MSG_DELETED : string := "Event deleted successfully.".
Definition MSG_UNKNOWN : string := "Unknown intent or action not supported.".
Definition MSG_NOT_UNDERSTOOD : string := "Could not understand audio".
Definition MSG_API_UNAVAILABLE : string := "API unavailable".

(** The dict literal of [create_event]. *)
Definition create_event_body (summary : string) (start_time end_time : timestr)
    (attendees : option (list string)) : event_body :=
  {| body_summary := summary;
     body_start := {| bt_dateTime := start_time; bt_timeZone := "UTC" |};
     body_end := {| bt_dateTime := end_time; bt_timeZone := "UTC" |};
     body_attendees :=
       if Py.truthy_list attendees
       then map mkAttendee (default [] attendees)
       else [] |}.

(** The locals of [handle_voice] that its [finally] block reads. *)
Record VoiceFrame : Type := mkFrame {
  file_path : option string;
  wav_file_path : option string
}.

(** Truthiness of a text that may be [None]: [None] and the empty text
    are false. *)
Definition truthy_str (o : option string) : option string :=
  match o with
  | Some EmptyString => None
  | _ => o
  end.

Section Program.

Variable env : Env.

Definition datetime_utcnow : M World Z :=
  fun w => (inr (utcnow env (clock_reads w)), tick_clock w).

(** [update.message.reply_text(msg)] *)
Definition reply_text (msg : string) : M World unit :=
  fun w =>
    match tg_reply_text env w msg with
    | Some e => (inl e, w)
    | None => (inr tt, push_outbox msg w)
    end.

(** [os.remove]: raises [FileNotFoundError] on a missing path; on a path
    that exists it removes it, unless the system refuses (a directory, a
    permission, a file in use). *)
Definition os_remove (path : string) : M World unit :=
  fun w =>
    if bool_decide (path ∈ fs w)
    then match os_remove_error env w path with
         | Some e => (inl e, w)
         | None => (inr tt, set_fs (fun f => f ∖ {[path]}) w)
         end
    else (inl (OtherError "FileNotFoundError"), w).

(** [with open(path, 'w') as f: f.write(...)] *)
Definition write_file (path : string) : M World unit :=
  call_write (fun w => open_for_write env w path) path.

(** A calendar request is logged as issued, then executed remotely. *)
Definition issue (req : cal_request) : M World unit := modify (push_cal req).

(** The [else] branch of the credential check: the interactive flow. *)
Definition run_installed_app_flow : M World creds :=
  flow <- call (fun w =>
    InstalledAppFlow_from_client_secrets_file env w CREDENTIALS_FILE SCOPES);;
  call (fun w => flow_run_local_server env w flow 0).

Definition authenticate_google_calendar : M World Service :=
  has_token <- os_path_exists "token.json";;
  creds0 <- (if has_token
             then c <- call (fun w =>
                      Credentials_from_authorized_user_file env w "token.json" SCOPES);;
                  ret (Some c)
             else ret None);;
  creds1 <-
    match creds0 with
    | Some c =>
        (* [creds] is an object, hence truthy: only [creds.valid] decides *)
        if negb (valid c) then
          c' <- (if expired c && bool_decide (is_Some (truthy_str (refresh_token c)))
                 then call (fun w => creds_refresh env w c)
                 else run_installed_app_flow);;
          write_file "token.json";;
          ret c'
        else ret c
    | None =>
        (* [not creds] holds; [creds and ...] is false *)
        c' <- run_installed_app_flow;;
        write_file "token.json";;
        ret c'
    end;;
  call (fun w => build env w "calendar" "v3" creds1).

Definition transcribe_audio (audio_file : string) : M World string :=
  audio <- call (fun w => sr_record env w audio_file);;
  try_except
    (text <- call (fun w => sr_recognize_google env w audio);;
     ret text)
    (fun e =>
       match e with
       | UnknownValueError => ret MSG_NOT_UNDERSTOOD
       | RequestError => ret MSG_API_UNAVAILABLE
       | _ => raise e
       end).

Definition intent_prompt (text : string) : string :=
  "Analyze the intent of the following text and respond with one of the following: 'list_events', 'create_event', 'delete_event', or 'unknown'. Text: "
  +:+ text.

Definition analyze_intent (text : string) : M World string :=
  response <- call (fun w => model_generate_content env w (intent_prompt text));;
  ret (str_lower env (str_strip env response)).

Definition list_today_events (service : Service) : M World (list event) :=
  t1 <- datetime_utcnow;;
  let now := IsoZ t1 in
  t2 <- datetime_utcnow;;
  let tomorrow := IsoZ (t2 + timedelta_days 1) in
  let req := ReqList "primary" now tomorrow true "startTime" in
  issue req;;
  events_result <- call (fun w => events_list_execute env w service req);;
  let events := default [] (items events_result) in
  ret events.

(** No [return] statement: the call evaluates to [None]. *)
Definition create_event (service : Service) (summary : string)
    (start_time end_time : timestr) (attendees : option (list string))
    : M World (option created_event) :=
  let req := ReqInsert "primary" (create_event_body summary start_time end_time attendees) in
  issue req;;
  event <- call (fun w => events_insert_execute env w service req);;
  logger (LogEventCreated (htmlLink event));;
  ret None.

Definition delete_event (service : Service) (event_id : string) : M World unit :=
  let req := ReqDelete "primary" event_id in
  issue req;;
  call_unit (fun w => events_delete_execute env w service req);;
  logger (LogEventDeleted event_id).

(** [event[key]] on a dict that may lack the key. *)
Definition getitem {A} (key : string) (o : option A) : M World A :=
  match o with
  | Some a => ret a
  | None => raise (KeyError key)
  end.

(** The line a listed event is shown as. *)
Definition event_line (start : option string) (summary : string) : string :=
  Py.format_opt start +:+ " - " +:+ summary.

(** [for event in events: ...] of the [list_events] branch. *)
Fixpoint reply_events (events : list event) : M World unit :=
  match events with
  | [] => ret tt
  | event :: rest =>
      st <- getitem "start" (ev_start event);;
      let start :=
        match st_dateTime st with
        | Some d => Some d
        | None => st_date st
        end in
      summary <- getitem "summary" (ev_summary event);;
      reply_text (event_line start summary);;
      reply_events rest
  end.

(** The [if not events: ... else: for ...] of the [list_events] branch. *)
Definition reply_listing (events : list event) : M World unit :=
  match events with
  | [] => reply_text MSG_NO_EVENTS
  | _ :: _ => reply_events events
  end.

(** The [if]/[elif]/[else] chain of [process_intent_and_perform_action]. *)
Definition perform_action (update : Update) (service : Service) (intent : string)
    : M World unit :=
  if String.eqb intent "list_events" then
    events <- list_today_events service;;
    reply_listing events
  else if String.eqb intent "create_event" then
    (* placeholder values *)
    let summary := "Meeting with Team" in
    t1 <- datetime_utcnow;;
    let start_time := IsoZ (t1 + timedelta_hours 1) in
    t2 <- datetime_utcnow;;
    let end_time := IsoZ (t2 + timedelta_hours 2) in
    let attendees := ["guest1@example.com"; "guest2@example.com"] in
    create_event service summary start_time end_time (Some attendees);;
    reply_text MSG_CREATED
  else if String.eqb intent "delete_event" then
    (* placeholder event id *)
    let event_id := "your_event_id" in
    delete_event service event_id;;
    reply_text MSG_DELETED
  else
    reply_text MSG_UNKNOWN.

Definition process_intent_and_perform_action (update : Update) (text : string)
    : M World unit :=
  intent <- analyze_intent text;;
  service <- authenticate_google_calendar;;
  perform_action update service intent.

(** The [except Exception as e:] block shared by both handlers. *)
Definition on_error (e : exn) : M World unit :=
  logger (LogError e);;
  reply_text MSG_ERROR.

Definition handle_text_body (update : Update) : M World unit :=
  let text := message_text update in
  reply_text ("Received Text: " +:+ text);;
  process_intent_and_perform_action update text.

Definition handle_text (update : Update) : M World unit :=
  try_except (handle_text_body update) on_error.

(** *** The voice handler *)

Definition oga_path (update : Update) : string :=
  Py.path_join "voice_messages" (pretty (from_user_id update) +:+ ".oga").
Definition wav_path (update : Update) : string :=
  Py.path_join "voice_messages" (pretty (from_user_id update) +:+ ".wav").

Definition assign_file_path (p : string) : M (VoiceFrame * World) unit :=
  modify (fun fw => (mkFrame (Some p) (wav_file_path (fst fw)), snd fw)).
Definition assign_wav_file_path (p : string) : M (VoiceFrame * World) unit :=
  modify (fun fw => (mkFrame (file_path (fst fw)) (Some p), snd fw)).

Definition handle_voice_body (update : Update) : M (VoiceFrame * World) unit :=
  file <- lift_snd (call (fun w => tg_get_file env w (message_voice update)));;
  let fp := oga_path update in
  assign_file_path fp;;
  lift_snd (call_write (fun w => tg_download_to_drive env w file fp) fp);;
  let wp := wav_path update in
  assign_wav_file_path wp;;
  audio <- lift_snd (call (fun w => AudioSegment_from_file env w fp "ogg"));;
  lift_snd (call_write (fun w => AudioSegment_export env w audio wp "wav") wp);;
  text <- lift_snd (transcribe_audio wp);;
  lift_snd (reply_text ("Transcribed Text: " +:+ text));;
  lift_snd (process_intent_and_perform_action update text).

(** [if path and os.path.exists(path): os.remove(path)] *)
Definition remove_if_staged (path : option string) : M World unit :=
  match truthy_str path with
  | Some p =>
      present <- os_path_exists p;;
      if present then os_remove p else ret tt
  | None => ret tt
  end.

(** The [finally] block. *)
Definition cleanup (frame : VoiceFrame) : M World unit :=
  remove_if_staged (file_path frame);;
  remove_if_staged (wav_file_path frame).

Definition handle_voice_finally : M (VoiceFrame * World) unit :=
  fun fw => lift_snd (cleanup (fst fw)) fw.

Definition handle_voice_frame (update : Update) : M (VoiceFrame * World) unit :=
  try_finally
    (try_except (handle_voice_body update) (fun e => lift_snd (on_error e)))
    handle_voice_finally.

Definition handle_voice (update : Update) : M World unit :=
  fun w =>
    match handle_voice_frame update (mkFrame None None, w) with
    | (r, fw) => (r, snd fw)
    end.

End Program.

Arguments oga_path update /.
Arguments wav_path update /.

(** ** The intent a label stands for

    The source compares the label text; [intent_of] names the branch the
    [if]/[elif]/[else] chain of [perform_action] takes. *)

Inductive Intent : Type := ListEvents | CreateEvent | DeleteEvent | Unknown.

Definition intent_of (label : string) : Intent :=
  if String.eqb label "list_events" then ListEvents
  else if String.eqb label "create_event" then CreateEvent
  else if String.eqb label "delete_event" then DeleteEvent
  else Unknown.

Definition ACTION_LABELS : list string :=
  ["list_events"; "create_event"; "delete_event"].

(** The label [analyze_intent] makes of the model's response text. *)
Definition normalize (env : Env) (response : string) : string :=
  str_lower env (str_strip env response).

(** ** Properties of runs *)

(** [m] relates every start state to its end state by [R], whether it
    returns or raises. *)
Definition frames {S A} (R : relation S) (m : M S A) : Prop :=
  forall s r s', m s = (r, s') -> R s s'.

Definition same_outbox : relation World := fun w w' => outbox w' = outbox w.
Definition same_cal_log : relation World := fun w w' => cal_log w' = cal_log w.
Definition same_fs : relation World := fun w w' => fs w' = fs w.
Definition cal_log_grows : relation World :=
  fun w w' => exists issued : list cal_request, cal_log w' = (cal_log w ++ issued)%list.
Definition same_frame : relation (VoiceFrame * World) :=
  fun fw fw' => fst fw' = fst fw.

(** The world component of a lifted computation. *)
Definition on_world (R : relation World) : relation (VoiceFrame * World) :=
  fun fw fw' => R (snd fw) (snd fw').

(** The transport delivers every reply. *)
Definition transport_ok (env : Env) : Prop :=
  forall w msg, tg_reply_text env w msg = None.

(** The text the list branch shows for an event that has both keys. *)
Definition start_text (st : event_start) : option string :=
  match st_dateTime st with
  | Some d => Some d
  | None => st_date st
  end.

Definition shown_as (e : event) (line : string) : Prop :=
  exists st summary,
    ev_start e = Some st /\ ev_summary e = Some summary /\
    line = event_line (start_text st) summary.

(** Staging of the container file starts when the handle of the voice
    attachment is obtained; staging of the waveform file, when the
    download has succeeded as well. *)
Definition container_staged (env : Env) (update : Update) (w : World) : Prop :=
  exists file, tg_get_file env w (message_voice update) = inr file.

Definition waveform_staged (env : Env) (update : Update) (w : World) : Prop :=
  exists file,
    tg_get_file env w (message_voice update) = inr file /\
    tg_download_to_drive env w file (oga_path update) = IoOk.

(** ** Concrete environments *)

Definition world0 : World := mkWorld ∅ 0 [] [] [].

Definition fresh_creds : creds := mkCreds true false (Some "refresh").

(** A scenario fixes what the external services answer, whatever the
    world; the clock advances by one microsecond per reading. *)
Record Scenario : Type := mkScenario {
  sc_get_file : result string;
  sc_download : io_outcome;
  sc_record : result string;
  sc_recognize : result string;
  sc_model : result string;
  sc_secrets : result string;
  sc_items : option (list event);
  sc_created : result created_event;
  sc_reply : option exn
}.

Definition env_of (sc : Scenario) : Env :=
  {| utcnow := fun k => Z.of_nat k;
     str_strip := AsciiRuntime.strip;
     str_lower := AsciiRuntime.lower;
     os_remove_error := fun _ _ => None;
     open_for_write := fun _ _ => IoOk;
     tg_get_file := fun _ _ => sc_get_file sc;
     tg_download_to_drive := fun _ _ _ => sc_download sc;
     tg_reply_text := fun _ _ => sc_reply sc;
     AudioSegment_from_file := fun _ _ _ => inr "pcm";
     AudioSegment_export := fun _ _ _ _ => IoOk;
     sr_record := fun _ _ => sc_record sc;
     sr_recognize_google := fun _ _ => sc_recognize sc;
     model_generate_content := fun _ _ => sc_model sc;
     Credentials_from_authorized_user_file := fun _ _ _ => inr fresh_creds;
     creds_refresh := fun _ c => inr c;
     InstalledAppFlow_from_client_secrets_file := fun _ _ _ => sc_secrets sc;
     flow_run_local_server := fun _ _ _ => inr fresh_creds;
     build := fun _ _ _ c => inr (mkService c);
     events_list_execute := fun _ _ _ => inr (mkListResponse (sc_items sc));
     events_insert_execute := fun _ _ _ => sc_created sc;
     events_delete_execute := fun _ _ _ => None |}.

Definition sample_body : event_body :=
  create_event_body "Meeting with Team" (IsoZ 0) (IsoZ 1) None.

Definition sample_created : created_event :=
  mkCreated (Some "https://calendar.example/event?eid=1") sample_body.

(** Every service answers; the model says [reply]; the calendar holds
    [events]. *)
Definition calm (reply : string) (events : option (list event)) : Scenario :=
  {| sc_get_file := inr "file-1";
     sc_download := IoOk;
     sc_record := inr "audio";
     sc_recognize := inr "what is on my calendar today";
     sc_model := inr reply;
     sc_secrets := inr "client-config";
     sc_items := events;
     sc_created := inr sample_created;
     sc_reply := None |}.

Definition sample_update : Update := mkUpdate 42 "hi" "voice-1".

Definition standup : event :=
  mkEvent (Some (mkStart (Some "2026-11-03T09:00:00Z") None)) (Some "Standup").
Definition holiday : event :=
  mkEvent (Some (mkStart None (Some "2026-11-03"))) (Some "Holiday").
Definition untitled : event :=
  mkEvent (Some (mkStart (Some "2026-11-03T10:00:00Z") None)) None.

(** The recorded file cannot be read by the recognizer's loader. *)
Definition unreadable_audio : Scenario :=
  {| sc_get_file := inr "file-1";
     sc_download := IoOk;
     sc_record := inl (OtherError "ValueError: Audio file could not be read as PCM WAV");
     sc_recognize := inr "never reached";
     sc_model := inr "unknown";
     sc_secrets := inr "client-config";
     sc_items := None;
     sc_created := inr sample_created;
     sc_reply := None |}.

(** The paths the [finally] block may remove for a value of a path
    variable. *)
Definition path_set (o : option string) : gset string :=
  match truthy_str o with
  | Some p => {[p]}
  | None => ∅
  end.

Definition sample_service : Service := mkService fresh_creds.

(** The calendar answers a list request with two events, the later one
    first. *)
Definition late_event : event :=
  mkEvent (Some (mkStart (Some "2026-11-05T09:00:00Z") None)) (Some "Review").

(** An event record that carries the two keys the listing indexes. *)
Definition has_keys (e : event) : Prop :=
  is_Some (ev_start e) /\ is_Some (ev_summary e).

(** The file of client secrets is missing: the interactive flow cannot
    start. *)
Definition no_client_secrets : Scenario :=
  {| sc_get_file := inr "file-1";
     sc_download := IoOk;
     sc_record := inr "audio";
     sc_recognize := inr "tell me a joke";
     sc_model := inr "unknown";
     sc_secrets := inl (OtherError "FileNotFoundError: credentials.json");
     sc_items := None;
     sc_created := inr sample_created;
     sc_reply := None |}.

(** ** The two handlers, side by side *)

Inductive handler_kind : Type := TextHandler | VoiceHandler.

(** The [try] block of a handler, run from the handler's entry. *)
Definition try_block (env : Env) (kind : handler_kind) (update : Update)
    : M World unit :=
  match kind with
  | TextHandler => handle_text_body env update
  | VoiceHandler =>
      fun w =>
        match handle_voice_body env update (mkFrame None None, w) with
        | (r, fw) => (r, snd fw)
        end
  end.

Definition handler (env : Env) (kind : handler_kind) (update : Update)
    : M World unit :=
  match kind with
  | TextHandler => handle_text env update
  | VoiceHandler => handle_voice env update
  end.

(** The language model is out of quota. *)
Definition model_down : Scenario :=
  {| sc_get_file := inr "file-1";
     sc_download := IoOk;
     sc_record := inr "audio";
     sc_recognize := inr "what is on my calendar today";
     sc_model := inl (OtherError "ResourceExhausted");
     sc_secrets := inr "client-config";
     sc_items := None;
     sc_created := inr sample_created;
     sc_reply := None |}.

(** The calendar accepts no insert. *)
Definition insert_refused : Scenario :=
  {| sc_get_file := inr "file-1";
     sc_download := IoOk;
     sc_record := inr "audio";
     sc_recognize := inr "book a meeting";
     sc_model := inr "create_event";
     sc_secrets := inr "client-config";
     sc_items := None;
     sc_created := inl (OtherError "HttpError 403");
     sc_reply := None |}.

(** [m] appends [l] to the outbox, with [ok l] when it returns and
    [err l] when it raises. *)
Definition emits {A} (ok err : list string -> Prop) (m : M World A) : Prop :=
  forall w r w1, m w = (r, w1) ->
    exists l, outbox w1 = outbox w ++ l /\
              match r with
              | inr _ => ok l
              | inl _ => err l
              end.



(** ** More properties of runs *)

(** Nothing but local storage differs between two worlds. *)
Definition only_storage_differs : relation World :=
  fun w w' =>
    clock_reads w' = clock_reads w /\ outbox w' = outbox w /\
    cal_log w' = cal_log w /\ logs w' = logs w.

(** Storage keeps every path it had and gains none outside [allowed]. *)
Definition storage_gains (allowed : gset string) : relation World :=
  fun w w' => fs w ⊆ fs w' /\ fs w' ⊆ allowed ∪ fs w.

(** [m] appends [l] to the log of calendar requests, with [P l], whether
    it returns or raises. *)
Definition issues {A} (P : list cal_request -> Prop) (m : M World A) : Prop :=
  forall w r w1, m w = (r, w1) ->
    exists l, cal_log w1 = cal_log w ++ l /\ P l.

(** ** More concrete environments *)

(** [env], except that the token file holds the credentials [c]. *)
Definition with_stored_creds (c : creds) (env : Env) : Env :=
  {| utcnow := utcnow env;
     str_strip := str_strip env;
     str_lower := str_lower env;
     os_remove_error := os_remove_error env;
     open_for_write := open_for_write env;
     tg_get_file := tg_get_file env;
     tg_download_to_drive := tg_download_to_drive env;
     tg_reply_text := tg_reply_text env;
     AudioSegment_from_file := AudioSegment_from_file env;
     AudioSegment_export := AudioSegment_export env;
     sr_record := sr_record env;
     sr_recognize_google := sr_recognize_google env;
     model_generate_content := model_generate_content env;
     Credentials_from_authorized_user_file := fun _ _ _ => inr c;
     creds_refresh := fun _ c0 => inr (mkCreds true false (refresh_token c0));
     InstalledAppFlow_from_client_secrets_file :=
       InstalledAppFlow_from_client_secrets_file env;
     flow_run_local_server := flow_run_local_server env;
     build := build env;
     events_list_execute := events_list_execute env;
     events_insert_execute := events_insert_execute env;
     events_delete_execute := events_delete_execute env |}.

Definition world_with_token : World := mkWorld {["token.json"]} 0 [] [] [].

Definition stale_creds : creds := mkCreds false true (Some "refresh").





(** The chat transport is unreachable. *)
Definition transport_down : Scenario :=
  {| sc_get_file := inr "file-1";
     sc_download := IoOk;
     sc_record := inr "audio";
     sc_recognize := inr "what is on my calendar today";
     sc_model := inr "list_events";
     sc_secrets := inr "client-config";
     sc_items := None;
     sc_created := inr sample_created;
     sc_reply := Some (OtherError "NetworkError") |}.

(** The recognizer cannot make out the audio. *)
Definition mumbled_audio : Scenario :=
  {| sc_get_file := inr "file-1";
     sc_download := IoOk;
     sc_record := inr "audio";
     sc_recognize := inl UnknownValueError;
     sc_model := inr "unknown";
     sc_secrets := inr "client-config";
     sc_items := None;
     sc_created := inr sample_created;
     sc_reply := None |}.

(** The attachment cannot be fetched. *)
Definition attachment_gone : Scenario :=
  {| sc_get_file := inl (OtherError "BadRequest: file is too big");
     sc_download := IoOk;
     sc_record := inr "audio";
     sc_recognize := inr "never reached";
     sc_model := inr "unknown";
     sc_secrets := inr "client-config";
     sc_items := None;
     sc_created := inr sample_created;
     sc_reply := None |}.

(** The world once both files of a voice message are staged. *)
Definition staged_world (update : Update) (w : World) : World :=
  set_fs (fun f => {[wav_path update]} ∪ f)
    (set_fs (fun f => {[oga_path update]} ∪ f) w).





(** The intent a calendar request serves. *)
Definition request_kind (r : cal_request) : Intent :=
  match r with
  | ReqList _ _ _ _ _ => ListEvents
  | ReqInsert _ _ => CreateEvent
  | ReqDelete _ _ => DeleteEvent
  end.

(** Exactly one request, serving [intent]. *)
Definition one_request_for (intent : Intent) (l : list cal_request) : Prop :=
  exists req, l = [req] /\ request_kind req = intent.

(** Every [os.remove] of a file that exists succeeds. *)
Definition removals_ok (env : Env) : Prop :=
  forall w path, os_remove_error env w path = None.

(** [env], except that local storage refuses every removal with [e]. *)
Definition with_locked_storage (e : exn) (env : Env) : Env :=
  {| utcnow := utcnow env;
     str_strip := str_strip env;
     str_lower := str_lower env;
     os_remove_error := fun _ _ => Some e;
     open_for_write := open_for_write env;
     tg_get_file := tg_get_file env;
     tg_download_to_drive := tg_download_to_drive env;
     tg_reply_text := tg_reply_text env;
     AudioSegment_from_file := AudioSegment_from_file env;
     AudioSegment_export := AudioSegment_export env;
     sr_record := sr_record env;
     sr_recognize_google := sr_recognize_google env;
     model_generate_content := model_generate_content env;
     Credentials_from_authorized_user_file := Credentials_from_authorized_user_file env;
     creds_refresh := creds_refresh env;
     InstalledAppFlow_from_client_secrets_file :=
       InstalledAppFlow_from_client_secrets_file env;
     flow_run_local_server := flow_run_local_server env;
     build := build env;
     events_list_execute := events_list_execute env;
     events_insert_execute := events_insert_execute env;
     events_delete_execute := events_delete_execute env |}.

(** The line the listing shows for an event, written out: the
    [dateTime] of its [start], else the [date], else the text [None];
    then a blank, a hyphen, a blank; then the [summary]. *)
Definition listed_as (e : event) (line : string) : Prop :=
  exists st summary,
    ev_start e = Some st /\ ev_summary e = Some summary /\
    line = match st_dateTime st with
           | Some d => d
           | None => match st_date st with
                     | Some d => d
                     | None => "None"
                     end
           end +:+ " - " +:+ summary.

(** [events] is what the calendar adapter returned for a list request. *)
Definition listing_of (env : Env) (events : list event) : Prop :=
  exists service w w', list_today_events env service w = (inr events, w').

(** The replies sent before the pipeline raised: none, or the lines of
    the first events of a listing that has more. *)
Definition partial_listing (env : Env) (lines : list string) : Prop :=
  lines = [] \/
  exists events shown rest,
    listing_of env events /\ events = shown ++ rest /\ rest <> [] /\
    Forall2 listed_as shown lines.

(** What follows the acknowledgement among the replies to an event. *)
Inductive reply_tail (env : Env) : list string -> Prop :=
| tail_no_events : listing_of env [] -> reply_tail env [MSG_NO_EVENTS]
| tail_listing events lines :
    listing_of env events -> events <> [] ->
    Forall2 listed_as events lines -> reply_tail env lines
| tail_created : reply_tail env [MSG_CREATED]
| tail_deleted : reply_tail env [MSG_DELETED]
| tail_unknown : reply_tail env [MSG_UNKNOWN]
| tail_error lines :
    partial_listing env lines -> reply_tail env (lines ++ [MSG_ERROR]).

(** Nothing differs but local storage, which gains no path and loses
    none outside [gone]. *)
Definition shrinks_by (gone : gset string) : relation World :=
  fun w w' =>
    clock_reads w' = clock_reads w /\ outbox w' = outbox w /\
    cal_log w' = cal_log w /\ logs w' = logs w /\
    fs w' ⊆ fs w /\ fs w ∖ gone ⊆ fs w'.

(** [env], except that the transport refuses the generic failure
    message with [e] and delivers every other reply. *)
Definition with_error_reply_refused (e : exn) (env : Env) : Env :=
  {| utcnow := utcnow env;
     str_strip := str_strip env;
     str_lower := str_lower env;
     os_remove_error := os_remove_error env;
     open_for_write := open_for_write env;
     tg_get_file := tg_get_file env;
     tg_download_to_drive := tg_download_to_drive env;
     tg_reply_text := fun _ msg => if String.eqb msg MSG_ERROR then Some e else None;
     AudioSegment_from_file := AudioSegment_from_file env;
     AudioSegment_export := AudioSegment_export env;
     sr_record := sr_record env;
     sr_recognize_google := sr_recognize_google env;
     model_generate_content := model_generate_content env;
     Credentials_from_authorized_user_file := Credentials_from_authorized_user_file env;
     creds_refresh := creds_refresh env;
     InstalledAppFlow_from_client_secrets_file :=
       InstalledAppFlow_from_client_secrets_file env;
     flow_run_local_server := flow_run_local_server env;
     build := build env;
     events_list_execute := events_list_execute env;
     events_insert_execute := events_insert_execute env;
     events_delete_execute := events_delete_execute env |}.

(** * Proofs *)

(** ** Sample runs *)

Example run_text_unknown :
  outbox (snd (handle_text (env_of (calm "unknown" None)) sample_update world0))
  = ["Received Text: hi"; MSG_UNKNOWN].
Proof. vm_compute. reflexivity. Qed.

Example run_voice_list :
  outbox (snd (handle_voice (env_of (calm " List_Events
" (Some [standup; holiday]))) sample_update world0))
  = ["Transcribed Text: what is on my calendar today";
     "2026-11-03T09:00:00Z - Standup"; "2026-11-03 - Holiday"].
Proof. vm_compute. reflexivity. Qed.

Example run_voice_fs :
  elements (fs (snd (handle_voice (env_of (calm "unknown" None)) sample_update world0)))
  = ["token.json"].
Proof. vm_compute. reflexivity. Qed.

(** ** Reasoning about runs *)

Section Frames.

Context {S : Type} (R : relation S) `{!PreOrder R}.

Lemma frames_ret {A} (a : A) : frames R (ret a).
Proof. intros s r s' [= <- <-]. reflexivity. Qed.

Lemma frames_raise {A} (e : exn) : frames R (@raise S A e).
Proof. intros s r s' [= <- <-]. reflexivity. Qed.

Lemma frames_modify (f : S -> S) :
  (forall s, R s (f s)) -> frames R (modify f).
Proof. intros Hf s r s' [= <- <-]. apply Hf. Qed.

Lemma frames_bind {A B} (m : M S A) (k : A -> M S B) :
  frames R m -> (forall a, frames R (k a)) -> frames R (bind m k).
Proof.
  intros Hm Hk s r s'. unfold bind.
  destruct (m s) as [[e|a] s1] eqn:Em; intros H.
  - inversion H; subst. eapply Hm, Em.
  - transitivity s1; [eapply Hm, Em | eapply Hk, H].
Qed.

Lemma frames_try_except {A} (m : M S A) (h : exn -> M S A) :
  frames R m -> (forall e, frames R (h e)) -> frames R (try_except m h).
Proof.
  intros Hm Hh s r s'. unfold try_except.
  destruct (m s) as [[e|a] s1] eqn:Em; intros H.
  - transitivity s1; [eapply Hm, Em | eapply Hh, H].
  - inversion H; subst. eapply Hm, Em.
Qed.

Lemma frames_try_finally {A} (m : M S A) (c : M S unit) :
  frames R m -> frames R c -> frames R (try_finally m c).
Proof.
  intros Hm Hc s r s'. unfold try_finally.
  destruct (m s) as [r1 s1] eqn:Em.
  destruct (c s1) as [[e|u] s2] eqn:Ec; intros H; inversion H; subst;
    (transitivity s1; [eapply Hm, Em | eapply Hc, Ec]).
Qed.

End Frames.

Section WorldFrames.

Context (R : relation World) `{!PreOrder R}.

Lemma frames_call {A} (o : World -> result A) : frames R (call o).
Proof. intros s r s' [= <- <-]. reflexivity. Qed.

Lemma frames_call_unit (o : World -> option exn) : frames R (call_unit o).
Proof.
  intros s r s'. unfold call_unit.
  destruct (o s); intros [= <- <-]; reflexivity.
Qed.

Lemma frames_os_path_exists path : frames R (os_path_exists path).
Proof. intros s r s' [= <- <-]. reflexivity. Qed.

(** Computations that touch the file system only. *)
Hypothesis R_set_fs : forall f w, R w (set_fs f w).

Lemma frames_call_write (o : World -> io_outcome) path :
  frames R (call_write o path).
Proof.
  intros s r s'. unfold call_write.
  destruct (o s); intros [= <- <-]; first [apply R_set_fs | reflexivity].
Qed.

Lemma frames_os_remove env path : frames R (os_remove env path).
Proof.
  intros s r s'. unfold os_remove.
  case_bool_decide; [destruct (os_remove_error env s path)|];
    intros [= <- <-]; first [apply R_set_fs | reflexivity].
Qed.

Lemma frames_write_file env path : frames R (write_file env path).
Proof. apply frames_call_write. Qed.

End WorldFrames.

Global Instance same_outbox_preorder : PreOrder same_outbox.
Proof. split; unfold same_outbox; [intros w | intros a b c]; congruence. Qed.

Global Instance same_cal_log_preorder : PreOrder same_cal_log.
Proof. split; unfold same_cal_log; [intros w | intros a b c]; congruence. Qed.

Global Instance same_fs_preorder : PreOrder same_fs.
Proof. split; unfold same_fs; [intros w | intros a b c]; congruence. Qed.

Global Instance same_frame_preorder : PreOrder same_frame.
Proof. split; unfold same_frame; [intros w | intros a b c]; congruence. Qed.

Global Instance cal_log_grows_preorder : PreOrder cal_log_grows.
Proof.
  split.
  - intros w. exists []. symmetry. apply app_nil_r.
  - intros a b c [l1 H1] [l2 H2]. exists (l1 ++ l2).
    rewrite H2, H1. symmetry. apply app_assoc.
Qed.

Lemma frames_lift_snd_frame {A} (m : M World A) :
  frames same_frame (lift_snd (F := VoiceFrame) m).
Proof.
  intros fw r fw'. unfold lift_snd.
  destruct (m (snd fw)) as [r1 w1]. intros [= <- <-]. reflexivity.
Qed.

(** A lifted computation acts on the world as the computation itself. *)
Lemma lift_snd_run {F A} (m : M World A) (f : F) (w : World) :
  lift_snd m (f, w) = (fst (m w), (f, snd (m w))).
Proof. unfold lift_snd. cbn. destruct (m w); reflexivity. Qed.

(** ** The file system: staging and cleanup *)

Lemma set_fs_id (f : gset string -> gset string) (w : World) :
  f (fs w) = fs w -> set_fs f w = w.
Proof. destruct w; unfold set_fs; cbn. intros ->. reflexivity. Qed.

(** With removals that succeed, the guarded removal takes away exactly
    the path the variable holds. *)
Lemma remove_if_staged_run env (path : option string) (w : World) :
  removals_ok env ->
  remove_if_staged env path w = (inr tt, set_fs (fun f => f ∖ path_set path) w).
Proof.
  intros Hok. unfold remove_if_staged, path_set.
  destruct (truthy_str path) as [p|].
  - unfold bind, os_path_exists, os_remove.
    destruct (decide (p ∈ fs w)) as [Hp|Hp].
    + rewrite !(bool_decide_eq_true_2 _ Hp), Hok. reflexivity.
    + rewrite (bool_decide_eq_false_2 _ Hp).
      cbn. f_equal. symmetry. apply set_fs_id.
      apply difference_disjoint_L, disjoint_singleton_r, Hp.
  - cbn. f_equal. symmetry. apply set_fs_id, difference_empty_L.
Qed.

Lemma cleanup_run env (frame : VoiceFrame) (w : World) :
  removals_ok env ->
  cleanup env frame w =
  (inr tt,
   set_fs (fun f => f ∖ path_set (file_path frame) ∖ path_set (wav_file_path frame)) w).
Proof.
  intros Hok. unfold cleanup, bind. rewrite !(remove_if_staged_run env _ _ Hok).
  reflexivity.
Qed.

(** Whatever the removals do, the guarded removal shrinks storage by at
    most the path the variable holds; what it raises was raised by
    [os.remove] on a file that exists. *)
Lemma remove_if_staged_outcome env path w r w' :
  remove_if_staged env path w = (r, w') ->
  shrinks_by (path_set path) w w' /\
  match r with
  | inr _ => True
  | inl e => exists w0 p, p ∈ fs w0 /\ os_remove_error env w0 p = Some e
  end.
Proof.
  unfold remove_if_staged, path_set, shrinks_by.
  destruct (truthy_str path) as [p|].
  - unfold bind, os_path_exists, os_remove.
    destruct (decide (p ∈ fs w)) as [Hp|Hp].
    + rewrite !(bool_decide_eq_true_2 _ Hp).
      destruct (os_remove_error env w p) as [e|] eqn:He; intros [= <- <-].
      * split; [repeat split; set_solver | eauto].
      * split; [repeat split; cbn; set_solver | exact I].
    + rewrite (bool_decide_eq_false_2 _ Hp). intros [= <- <-].
      split; [repeat split; set_solver | exact I].
  - intros [= <- <-]. split; [repeat split; set_solver | exact I].
Qed.

Lemma cleanup_outcome env frame w r w' :
  cleanup env frame w = (r, w') ->
  shrinks_by (path_set (file_path frame) ∪ path_set (wav_file_path frame)) w w' /\
  match r with
  | inr _ => True
  | inl e => exists w0 p, p ∈ fs w0 /\ os_remove_error env w0 p = Some e
  end.
Proof.
  unfold cleanup, bind.
  destruct (remove_if_staged env (file_path frame) w) as [[e|[]] w1] eqn:H1;
    apply remove_if_staged_outcome in H1 as [(A1 & A2 & A3 & A4 & A5 & A6) E1].
  - intros [= <- <-]. split; [|exact E1].
    unfold shrinks_by. repeat split; try assumption. set_solver.
  - intros H2. apply remove_if_staged_outcome in H2
      as [(B1 & B2 & B3 & B4 & B5 & B6) E2].
    split; [|exact E2]. unfold shrinks_by.
    repeat split; try congruence; set_solver.
Qed.

Lemma oga_wav_distinct (update : Update) : oga_path update <> wav_path update.
Proof.
  cbn. unfold Py.path_join. intros H.
  do 3 apply (inj (String.app _)) in H. discriminate H.
Qed.

Lemma path_set_oga update : path_set (Some (oga_path update)) = {[oga_path update]}.
Proof. reflexivity. Qed.

Lemma path_set_wav update : path_set (Some (wav_path update)) = {[wav_path update]}.
Proof. reflexivity. Qed.

Section ProgramFrames.

Context (env : Env) (R : relation World) `{!PreOrder R}.

Lemma frames_reply_text msg :
  (forall w, R w (push_outbox msg w)) -> frames R (reply_text env msg).
Proof.
  intros HR s r s'. unfold reply_text.
  destruct (tg_reply_text env s msg); intros [= <- <-]; [reflexivity | apply HR].
Qed.

Lemma frames_datetime_utcnow :
  (forall w, R w (tick_clock w)) -> frames R (datetime_utcnow env).
Proof. intros HR s r s' [= <- <-]. apply HR. Qed.

End ProgramFrames.

(** Decompose a goal [frames R m] along the structure of [m]; what is
    left are the primitive state changes, closed by [side]. *)
Ltac frames_unfold :=
  unfold process_intent_and_perform_action, perform_action, reply_listing,
    analyze_intent, authenticate_google_calendar, run_installed_app_flow,
    list_today_events, create_event, delete_event, transcribe_audio,
    handle_text, handle_text_body, on_error,
    logger, issue, write_file, getitem.

Ltac frames_tac side :=
  repeat first
    [ match goal with |- PreOrder _ => typeclasses eauto end
    | match goal with
      | H : frames _ _ |- _ => exact H
      | H : forall _, frames _ _ |- _ => apply H
      end
    | apply frames_ret
    | apply frames_raise
    | apply frames_call
    | apply frames_call_unit
    | apply frames_os_path_exists
    | apply frames_bind; [..|intros ?]
    | apply frames_try_except; [..|intros ?]
    | apply frames_reply_text; [..|intros ?]
    | apply frames_datetime_utcnow; [..|intros ?]
    | apply frames_modify; [..|intros ?]
    | apply frames_call_write; [..|intros ? ?]
    | match goal with
      | |- frames _ (match ?x with _ => _ end) => destruct x
      end
    | progress frames_unfold
    | progress cbv zeta
    | solve [side] ].

Lemma on_error_same_fs env e : frames same_fs (on_error env e).
Proof. frames_tac ltac:(reflexivity). Qed.

Lemma handle_voice_run env update w :
  handle_voice env update w =
  match try_except (handle_voice_body env update)
          (fun e => lift_snd (on_error env e)) (mkFrame None None, w) with
  | (r, (frame, w1)) =>
      match cleanup env frame w1 with
      | (inl e, w2) => (inl e, w2)
      | (inr _, w2) => (r, w2)
      end
  end.
Proof.
  unfold handle_voice, handle_voice_frame, try_finally, handle_voice_finally.
  destruct (try_except _ _ _) as [r [frame w1]].
  rewrite lift_snd_run. cbn [fst snd].
  destruct (cleanup env frame w1) as [[e|u] w2]; reflexivity.
Qed.

Lemma bind_lift_snd {F A B} (m : M World A) (k : A -> M (F * World) B) f w :
  bind (lift_snd m) k (f, w) =
  match m w with
  | (inl e, w') => (inl e, (f, w'))
  | (inr a, w') => k a (f, w')
  end.
Proof. unfold bind, lift_snd. cbn. destruct (m w) as [[e|a] w']; reflexivity. Qed.

(** Once both path variables are assigned, the rest of the [try] block
    leaves them alone. *)
Lemma voice_body_rest_same_frame env update audio_k :
  frames same_frame
    (audio <- lift_snd (F := VoiceFrame) (call (fun w0 =>
                AudioSegment_from_file env w0 (oga_path update) audio_k));;
     lift_snd (call_write (fun w0 =>
                AudioSegment_export env w0 audio (wav_path update) "wav")
                (wav_path update));;
     text <- lift_snd (transcribe_audio env (wav_path update));;
     lift_snd (reply_text env ("Transcribed Text: " +:+ text));;
     lift_snd (process_intent_and_perform_action env update text)).
Proof.
  repeat first [ apply frames_lift_snd_frame
               | apply frames_bind; [typeclasses eauto | | intros ?] ].
Qed.

(** How far staging got when the [try] block of the voice handler ends. *)
Lemma voice_body_outcome env update w r frame w1 :
  handle_voice_body env update (mkFrame None None, w) = (r, (frame, w1)) ->
  (exists e, r = inl e /\
     tg_get_file env w (message_voice update) = inl e /\
     frame = mkFrame None None /\ w1 = w)
  \/ (exists file e, r = inl e /\
        tg_get_file env w (message_voice update) = inr file /\
        tg_download_to_drive env w file (oga_path update) <> IoOk /\
        frame = mkFrame (Some (oga_path update)) None /\
        fs w1 ⊆ {[oga_path update]} ∪ fs w)
  \/ (exists file,
        tg_get_file env w (message_voice update) = inr file /\
        tg_download_to_drive env w file (oga_path update) = IoOk /\
        frame = mkFrame (Some (oga_path update)) (Some (wav_path update))).
Proof.
  unfold handle_voice_body.
  rewrite bind_lift_snd. unfold call at 1.
  destruct (tg_get_file env w (message_voice update)) as [e|file] eqn:Hget.
  { intros [= <- <- <-]. left. eauto. }
  unfold bind at 1, assign_file_path at 1, modify at 1.
  cbn [fst snd file_path wav_file_path].
  rewrite bind_lift_snd. unfold call_write at 1.
  destruct (tg_download_to_drive env w file (oga_path update)) as [|e|e] eqn:Hdl.
  - unfold bind at 1, assign_wav_file_path at 1, modify at 1.
    cbn [fst snd file_path wav_file_path].
    intros Hrest. apply voice_body_rest_same_frame in Hrest.
    right; right. exists file. auto.
  - intros [= <- <- <-]. right; left. exists file, e.
    repeat split; [congruence | set_solver].
  - intros [= <- <- <-]. right; left. exists file, e.
    repeat split; [congruence | cbn; set_solver].
Qed.

Lemma voice_try_outcome env update w r frame w1 :
  try_except (handle_voice_body env update)
    (fun e => lift_snd (on_error env e)) (mkFrame None None, w)
  = (r, (frame, w1)) ->
  (~ container_staged env update w /\
     frame = mkFrame None None /\ fs w1 = fs w)
  \/ (~ waveform_staged env update w /\
        frame = mkFrame (Some (oga_path update)) None /\
        fs w1 ⊆ {[oga_path update]} ∪ fs w)
  \/ frame = mkFrame (Some (oga_path update)) (Some (wav_path update)).
Proof.
  unfold try_except.
  destruct (handle_voice_body env update _) as [r0 [f0 w0]] eqn:Hbody.
  apply voice_body_outcome in Hbody.
  intros Hrun.
  assert (frame = f0 /\ fs w1 = fs w0) as [-> Hfs].
  { destruct r0 as [e|[]].
    - rewrite lift_snd_run in Hrun.
      destruct (on_error env e w0) as [r2 w2] eqn:Herr.
      apply on_error_same_fs in Herr. cbn in Hrun.
      injection Hrun as <- <- <-. auto.
    - injection Hrun as <- <- <-. auto. }
  destruct Hbody as [(e & -> & Hget & -> & ->)
                    |[(file & e & -> & Hget & Hdl & -> & Hsub)
                    |(file & Hget & Hdl & ->)]].
  - left. repeat split; [|assumption].
    intros [file Hfile]. congruence.
  - right; left. repeat split; [|rewrite Hfs; assumption].
    intros (file' & Hfile & Hok). congruence.
  - right; right. reflexivity.
Qed.


Lemma remove_if_staged_missing env path w :
  (forall p, p ∈ path_set path -> p ∉ fs w) ->
  remove_if_staged env path w = (inr tt, w).
Proof.
  unfold remove_if_staged, path_set.
  destruct (truthy_str path) as [p|]; [|reflexivity].
  intros H. unfold bind, os_path_exists.
  assert (Hp : p ∉ fs w) by (apply H; set_solver).
  rewrite (bool_decide_eq_false_2 _ Hp). reflexivity.
Qed.

Lemma cleanup_missing env frame w :
  (forall p, p ∈ path_set (file_path frame) ∪ path_set (wav_file_path frame) ->
             p ∉ fs w) ->
  cleanup env frame w = (inr tt, w).
Proof.
  intros H. unfold cleanup, bind.
  rewrite !remove_if_staged_missing; [reflexivity | |];
    intros p Hp; apply H; set_solver.
Qed.


(** C2 fails as stated: [os.remove] in the [finally] block is not
    guarded against the system refusing the removal; when it raises on
    the container file, the exception leaves the handler and both staged
    files stay in storage. *)
Lemma voice_staged_files_left_counterexample :
  let env := with_locked_storage (OtherError "PermissionError")
               (env_of (calm "unknown" None)) in
  let run := handle_voice env sample_update world0 in
  fst run = inl (OtherError "PermissionError")
  /\ oga_path sample_update ∈ fs (snd run)
  /\ wav_path sample_update ∈ fs (snd run).
Proof.
  cbn zeta. split; [vm_compute; reflexivity|].
  split; apply (bool_decide_unpack _); vm_compute; reflexivity.
Qed.

(** C2, amended.  When [os.remove] succeeds on the files it is asked to
    remove, voice events leave no staged file behind, on every exit path
    of the handler (normal return [r = inr tt], or an escaping exception
    [r = inl e]): the container file is absent afterwards as soon as its
    staging began or the path was free before the event, and likewise the
    waveform file. *)
Theorem voice_staged_files_absent env update w r w' :
  removals_ok env ->
  handle_voice env update w = (r, w') ->
  ((container_staged env update w \/ oga_path update ∉ fs w) ->
     oga_path update ∉ fs w') /\
  ((waveform_staged env update w \/ wav_path update ∉ fs w) ->
     wav_path update ∉ fs w').
Proof.
  intros Hok. rewrite handle_voice_run.
  destruct (try_except _ _ _) as [r0 [frame w1]] eqn:Htry.
  rewrite (cleanup_run env _ _ Hok). intros [= <- <-].
  pose proof (oga_wav_distinct update) as Hne.
  apply voice_try_outcome in Htry.
  destruct Htry as [(Hns & -> & Hfs)|[(Hns & -> & Hsub)| ->]];
    cbn [fs set_fs file_path wav_file_path];
    rewrite ?path_set_oga, ?path_set_wav.
  - split; intros [Hst|Hfree].
    + contradiction.
    + set_solver.
    + destruct Hns. destruct Hst as (file & Hget & _). exists file. exact Hget.
    + set_solver.
  - split; intros [Hst|Hfree].
    + set_solver.
    + set_solver.
    + contradiction.
    + set_solver.
  - split; intros _; set_solver.
Qed.

Lemma voice_staged_files_absent_witness :
  let w' := snd (handle_voice (env_of (calm "unknown" None)) sample_update world0) in
  (oga_path sample_update ∉ fs w') /\ (wav_path sample_update ∉ fs w').
Proof.
  destruct (voice_staged_files_absent (env_of (calm "unknown" None))
              sample_update world0 _ _ (fun _ _ => eq_refl)
              (surjective_pairing _)) as [Hoga Hwav].
  split.
  - apply Hoga. left. exists "file-1". reflexivity.
  - apply Hwav. left. exists "file-1". split; reflexivity.
Defined.


(** ** Classification *)

Lemma intent_of_unknown label :
  intent_of label = Unknown <-> label ∉ ACTION_LABELS.
Proof.
  unfold intent_of, ACTION_LABELS.
  destruct (String.eqb_spec label "list_events") as [->|H1];
    [split; [discriminate | intros H; destruct H; set_solver]|].
  destruct (String.eqb_spec label "create_event") as [->|H2];
    [split; [discriminate | intros H; destruct H; set_solver]|].
  destruct (String.eqb_spec label "delete_event") as [->|H3];
    [split; [discriminate | intros H; destruct H; set_solver]|].
  split; [intros _; set_solver | reflexivity].
Qed.

(** The chain dispatches on the intent of the label and on nothing else. *)
Lemma perform_action_dispatch env update service label :
  perform_action env update service label =
  match intent_of label with
  | ListEvents => perform_action env update service "list_events"
  | CreateEvent => perform_action env update service "create_event"
  | DeleteEvent => perform_action env update service "delete_event"
  | Unknown => reply_text env MSG_UNKNOWN
  end.
Proof.
  unfold intent_of, perform_action at 1.
  destruct (String.eqb_spec label "list_events") as [->|_]; [reflexivity|].
  destruct (String.eqb_spec label "create_event") as [->|_]; [reflexivity|].
  destruct (String.eqb_spec label "delete_event") as [->|_]; reflexivity.
Qed.

Lemma perform_action_unknown env update service label :
  label ∉ ACTION_LABELS ->
  perform_action env update service label = reply_text env MSG_UNKNOWN.
Proof.
  intros H. rewrite perform_action_dispatch.
  apply intent_of_unknown in H. rewrite H. reflexivity.
Qed.

(** C3.  Whatever text the model answers with, [analyze_intent] returns
    it trimmed, then lower-cased, by the runtime's own [str.strip] and
    [str.lower], and a label that is none of the three
    action labels is the [Unknown] intent: the dispatcher takes its
    [else] branch, the unsupported-intent reply. *)
Theorem classification_defaults_to_unknown env update service text w response :
  model_generate_content env w (intent_prompt text) = inr response ->
  normalize env response ∉ ACTION_LABELS ->
  analyze_intent env text w = (inr (normalize env response), w) /\
  intent_of (normalize env response) = Unknown /\
  perform_action env update service (normalize env response)
  = reply_text env MSG_UNKNOWN.
Proof.
  intros Hmodel Hlabel. split; [|split].
  - unfold analyze_intent, bind, call. rewrite Hmodel. reflexivity.
  - apply intent_of_unknown, Hlabel.
  - apply perform_action_unknown, Hlabel.
Qed.

Lemma classification_defaults_to_unknown_witness :
  let env := env_of (calm "  I think the user wants LIST_EVENTS. " None) in
  let response := "  I think the user wants LIST_EVENTS. " in
  normalize env response = "i think the user wants list_events." /\
  intent_of (normalize env response) = Unknown.
Proof.
  split; [reflexivity|].
  refine (proj1 (proj2 (classification_defaults_to_unknown
    (env_of (calm "  I think the user wants LIST_EVENTS. " None))
    sample_update (mkService fresh_creds) "hi" world0 _ _ _))).
  - reflexivity.
  - apply (bool_decide_unpack _). vm_compute. reflexivity.
Defined.

Example normalize_list_events :
  intent_of (normalize (env_of (calm "" None)) "
  List_Events	 ") = ListEvents.
Proof. reflexivity. Qed.

Example normalize_keeps_inner_space :
  normalize (env_of (calm "" None)) " create event " = "create event".
Proof. reflexivity. Qed.

(** ** Transcription *)

(** C4 fails as stated: an exception raised while the audio file is
    opened and read leaves [transcribe_audio]. *)
Lemma transcribe_audio_raises_counterexample :
  transcribe_audio (env_of unreadable_audio) "voice_messages/42.wav" world0
  = (inl (OtherError "ValueError: Audio file could not be read as PCM WAV"), world0)
  /\ ~ (exists text w',
          transcribe_audio (env_of unreadable_audio) "voice_messages/42.wav" world0
          = (inr text, w')).
Proof.
  split; [reflexivity|].
  intros (text & w' & H). discriminate H.
Qed.

(** C4, amended.  [transcribe_audio] turns the two recognition failures
    [UnknownValueError] and [RequestError] into the two placeholder
    texts, which it returns as ordinary text; it changes nothing in the
    world; and it raises exactly when reading the audio file raised, or
    recognition raised something other than those two. *)
Theorem transcribe_audio_failures env audio_file w :
  snd (transcribe_audio env audio_file w) = w
  /\ (forall audio,
        sr_record env w audio_file = inr audio ->
        sr_recognize_google env w audio = inl UnknownValueError ->
        fst (transcribe_audio env audio_file w) = inr MSG_NOT_UNDERSTOOD)
  /\ (forall audio,
        sr_record env w audio_file = inr audio ->
        sr_recognize_google env w audio = inl RequestError ->
        fst (transcribe_audio env audio_file w) = inr MSG_API_UNAVAILABLE)
  /\ (forall audio text,
        sr_record env w audio_file = inr audio ->
        sr_recognize_google env w audio = inr text ->
        fst (transcribe_audio env audio_file w) = inr text)
  /\ (forall e,
        fst (transcribe_audio env audio_file w) = inl e <->
        sr_record env w audio_file = inl e \/
        exists audio,
          sr_record env w audio_file = inr audio /\
          sr_recognize_google env w audio = inl e /\
          e <> UnknownValueError /\ e <> RequestError).
Proof.
  unfold transcribe_audio, bind, try_except, call.
  destruct (sr_record env w audio_file) as [e0|audio] eqn:Hrec.
  { cbn. repeat split; try discriminate.
    - intros H. left. exact H.
    - intros [H|(a & H & _)]; [exact H | discriminate H]. }
  destruct (sr_recognize_google env w audio) as [e1|text] eqn:Hrg.
  - repeat split.
    + destruct e1; reflexivity.
    + intros a Ha Hb. injection Ha as <-. rewrite Hrg in Hb.
      injection Hb as ->. reflexivity.
    + intros a Ha Hb. injection Ha as <-. rewrite Hrg in Hb.
      injection Hb as ->. reflexivity.
    + intros a t Ha Hb. congruence.
    + intros H. right. exists audio.
      destruct e1; cbn in H; try discriminate H; injection H as <-;
        (split; [reflexivity | split; [exact Hrg | split; discriminate]]).
    + intros [H|(a & [= <-] & Ha & Hn1 & Hn2)]; [discriminate H|].
      rewrite Hrg in Ha. injection Ha as ->.
      destruct e; cbn; congruence.
  - cbn. repeat split; try discriminate; try congruence.
    + intros [H|(a & [= <-] & Ha & _)]; [discriminate H|].
      rewrite Hrg in Ha. discriminate Ha.
Qed.

(** ** The calendar adapter *)

(** C8 fails as stated: the service answers the insert with the created
    record, and [create_event] evaluates to [None]. *)
Lemma create_event_returns_none_counterexample :
  events_insert_execute (env_of (calm "create_event" None))
    (push_cal (ReqInsert "primary" sample_body) world0) sample_service
    (ReqInsert "primary" sample_body) = inr sample_created
  /\ fst (create_event (env_of (calm "create_event" None)) sample_service
            "Meeting with Team" (IsoZ 0) (IsoZ 1) None world0)
     <> inr (Some sample_created).
Proof. split; [reflexivity | discriminate]. Qed.

(** C8, amended.  [create_event] issues one insert request on the
    primary calendar whose body carries the summary, start and end with
    the time zone ["UTC"], and an attendee list that is empty when no
    attendees (or an empty list) are supplied and has one entry per
    address otherwise; when the service answers with the created record
    it logs the record's link and returns nothing ([None]); an error of
    the service is raised to the caller. *)
Theorem create_event_request env service summary start_time end_time attendees w :
  let body := create_event_body summary start_time end_time attendees in
  let req := ReqInsert "primary" body in
  body_summary body = summary
  /\ body_start body = mkBodyTime start_time "UTC"
  /\ body_end body = mkBodyTime end_time "UTC"
  /\ body_attendees body = map mkAttendee (default [] attendees)
  /\ (Py.truthy_list attendees = false -> body_attendees body = [])
  /\ match events_insert_execute env (push_cal req w) service req with
     | inr created =>
         create_event env service summary start_time end_time attendees w
         = (inr None, push_log (LogEventCreated (htmlLink created)) (push_cal req w))
     | inl e =>
         create_event env service summary start_time end_time attendees w
         = (inl e, push_cal req w)
     end.
Proof.
  cbn zeta. repeat split.
  - unfold create_event_body. cbn.
    destruct attendees as [[|a l]|]; reflexivity.
  - unfold create_event_body. cbn. intros ->. reflexivity.
  - unfold create_event, bind, issue, modify, call, logger.
    destruct (events_insert_execute env _ service _); reflexivity.
Qed.

(** C7 fails as stated: the two bounds of the query come from two
    readings of the clock, so the window is not 24 hours long as soon as
    the clock moves between them; and the events of the answer are
    returned as they come. *)
Lemma list_today_window_counterexample :
  cal_log (snd (list_today_events (env_of (calm "list_events" None))
                  sample_service world0))
  = [ReqList "primary" (IsoZ 0) (IsoZ 86400000001) true "startTime"]
  /\ ~ (exists now,
          cal_log (snd (list_today_events (env_of (calm "list_events" None))
                          sample_service world0))
          = [ReqList "primary" (IsoZ now) (IsoZ (now + timedelta_days 1))
               true "startTime"])
  /\ fst (list_today_events
            (env_of (calm "list_events" (Some [late_event; standup])))
            sample_service world0)
     = inr [late_event; standup].
Proof.
  split; [reflexivity|]. split; [|reflexivity].
  intros [now H]. cbn in H. injection H as H1 H2.
  subst now. discriminate H2.
Qed.

(** C7, amended.  [list_today_events] issues one list request on the
    primary calendar with [timeMin] the first reading of the clock and
    [timeMax] the second reading plus one day, both as UTC texts, with
    [singleEvents] set and [orderBy] ["startTime"]; it returns the items
    of the answer unchanged and in the order received (none when the
    answer has no items), hence with whatever property [P] of window and
    order the answer has; an error of the service is raised. *)
Theorem list_today_events_request env service w :
  let t1 := utcnow env (clock_reads w) in
  let t2 := utcnow env (S (clock_reads w)) in
  let req := ReqList "primary" (IsoZ t1) (IsoZ (t2 + 86400000000)) true "startTime" in
  let w1 := push_cal req (tick_clock (tick_clock w)) in
  snd (list_today_events env service w) = w1
  /\ cal_log w1 = cal_log w ++ [req]
  /\ match events_list_execute env w1 service req with
     | inr answer =>
         fst (list_today_events env service w) = inr (default [] (items answer))
         /\ forall P : list event -> Prop,
              P (default [] (items answer)) ->
              exists events,
                fst (list_today_events env service w) = inr events /\ P events
     | inl e => fst (list_today_events env service w) = inl e
     end.
Proof.
  cbn zeta.
  unfold list_today_events, bind, datetime_utcnow, issue, modify, call.
  cbn [tick_clock clock_reads].
  change (timedelta_days 1) with 86400000000%Z.
  destruct (events_list_execute env _ service _) as [e|answer]; cbn.
  - auto.
  - repeat split. intros P HP. eauto.
Qed.

(** ** The dispatch pipeline *)

Lemma transport_ok_env_of sc : sc_reply sc = None -> transport_ok (env_of sc).
Proof. intros H w msg. exact H. Qed.

Lemma reply_text_delivered env msg w :
  tg_reply_text env w msg = None ->
  reply_text env msg w = (inr tt, push_outbox msg w).
Proof. intros H. unfold reply_text. rewrite H. reflexivity. Qed.

(** With a working transport and well-formed events the loop of the
    list branch sends one line per event, in order, and nothing else
    changes. *)
Lemma reply_events_delivers env events :
  transport_ok env -> Forall has_keys events ->
  forall w, exists lines,
    reply_events env events w
    = (inr tt, mkWorld (fs w) (clock_reads w) (outbox w ++ lines) (cal_log w) (logs w))
    /\ Forall2 shown_as events lines.
Proof.
  intros Hok Hkeys. induction Hkeys as [|e rest [[st Hst] [sm Hsm]] _ IH]; intros w.
  - exists []. split; [|constructor].
    cbn. rewrite app_nil_r. destruct w; reflexivity.
  - cbn [reply_events]. rewrite Hst, Hsm. unfold bind, getitem, ret.
    rewrite (reply_text_delivered env _ w (Hok _ _)).
    destruct (IH (push_outbox (event_line (start_text st) sm) w)) as (lines & Hrun & Hshown).
    exists (event_line (start_text st) sm :: lines). split.
    + unfold start_text in *. rewrite Hrun. cbn.
      rewrite <- app_assoc. reflexivity.
    + constructor; [|exact Hshown]. exists st, sm. auto.
Qed.

Lemma list_today_events_same_outbox env service :
  frames same_outbox (list_today_events env service).
Proof. frames_tac ltac:(reflexivity). Qed.

Lemma event_line_written_out st summary :
  event_line match st_dateTime st with
             | Some d => Some d
             | None => st_date st
             end summary
  = match st_dateTime st with
    | Some d => d
    | None => match st_date st with
              | Some d => d
              | None => "None"
              end
    end +:+ " - " +:+ summary.
Proof. destruct (st_dateTime st), (st_date st); reflexivity. Qed.

Lemma shown_as_listed_as e line : shown_as e line -> listed_as e line.
Proof.
  intros (st & sm & Hst & Hsm & ->). exists st, sm.
  split; [exact Hst|]. split; [exact Hsm|]. apply event_line_written_out.
Qed.

(** C9 fails as stated: an event without a title has no [summary]
    key; the adapter returns three events, the listing shows the first
    and raises [KeyError] at the second, so one reply is sent for three
    events. *)
Lemma list_events_untitled_counterexample :
  let env := env_of (calm "list_events" (Some [standup; untitled; holiday])) in
  fst (list_today_events env sample_service world0)
  = inr [standup; untitled; holiday]
  /\ fst (perform_action env sample_update sample_service "list_events" world0)
     = inl (KeyError "summary")
  /\ outbox (snd (perform_action env sample_update sample_service "list_events" world0))
     = ["2026-11-03T09:00:00Z - Standup"].
Proof. vm_compute. repeat split; reflexivity. Qed.

(** C9, amended.  In the [list_events] branch, when the adapter returns
    a non-empty sequence of N events that all carry the [start] and
    [summary] keys and the transport delivers, the handler sends exactly
    N replies, one per event in the order returned, each the event's
    start, then [" - "], then its summary, where the start is the
    [dateTime] or, without one, the [date]. *)
Theorem list_events_one_reply_per_event env update service w events w1 :
  list_today_events env service w = (inr events, w1) ->
  events <> [] ->
  Forall has_keys events ->
  transport_ok env ->
  exists lines w2,
    perform_action env update service "list_events" w = (inr tt, w2) /\
    outbox w2 = outbox w ++ lines /\
    length lines = length events /\
    Forall2 listed_as events lines.
Proof.
  intros Hlist Hne Hkeys Hok.
  destruct (reply_events_delivers env events Hok Hkeys w1) as (lines & Hrun & Hshown).
  assert (Hlisted : Forall2 listed_as events lines).
  { eapply Forall2_impl; [exact Hshown | apply shown_as_listed_as]. }
  exists lines. eexists. split; [|split; [|split; [|exact Hlisted]]].
  - unfold perform_action. rewrite String.eqb_refl.
    unfold bind. rewrite Hlist. unfold reply_listing.
    destruct events as [|e rest]; [contradiction|]. exact Hrun.
  - cbn. apply list_today_events_same_outbox in Hlist. rewrite Hlist. reflexivity.
  - symmetry. eapply Forall2_length, Hshown.
Qed.

Lemma list_events_one_reply_per_event_witness :
  exists lines w2,
    perform_action (env_of (calm "list_events" (Some [standup; holiday])))
      sample_update sample_service "list_events" world0 = (inr tt, w2) /\
    outbox w2 = outbox world0 ++ lines /\
    length lines = 2 /\
    Forall2 listed_as [standup; holiday] lines.
Proof.
  eapply (list_events_one_reply_per_event
            (env_of (calm "list_events" (Some [standup; holiday])))
            sample_update sample_service world0 [standup; holiday]).
  - vm_compute. reflexivity.
  - discriminate.
  - repeat constructor; eexists; reflexivity.
  - apply transport_ok_env_of. reflexivity.
Defined.

Example list_events_lines :
  outbox (snd (perform_action (env_of (calm "list_events" (Some [standup; holiday])))
                 sample_update sample_service "list_events" world0))
  = ["2026-11-03T09:00:00Z - Standup"; "2026-11-03 - Holiday"].
Proof. vm_compute. reflexivity. Qed.

(** An event without a title stops the listing: the lines sent so far
    are followed by the generic failure reply. *)
Example list_events_untitled :
  outbox (snd (handle_text (env_of (calm "list_events" (Some [standup; untitled; holiday])))
                 sample_update world0))
  = ["Received Text: hi"; "2026-11-03T09:00:00Z - Standup"; MSG_ERROR].
Proof. vm_compute. reflexivity. Qed.

Lemma analyze_intent_same_cal_log env text :
  frames same_cal_log (analyze_intent env text).
Proof. frames_tac ltac:(reflexivity). Qed.

Lemma authenticate_same_cal_log env :
  frames same_cal_log (authenticate_google_calendar env).
Proof. frames_tac ltac:(reflexivity). Qed.

(** C6 fails as stated: for an unknown intent the calendar client is
    authenticated all the same.  When that fails no unsupported-intent
    reply is sent (the text handler answers with the generic failure);
    when it runs the interactive flow, the token file is written. *)
Lemma unknown_intent_counterexample :
  (normalize (env_of no_client_secrets) "unknown" ∉ ACTION_LABELS)
  /\ process_intent_and_perform_action (env_of no_client_secrets)
       sample_update "hi" world0
     = (inl (OtherError "FileNotFoundError: credentials.json"), world0)
  /\ outbox (snd (handle_text (env_of no_client_secrets) sample_update world0))
     = ["Received Text: hi"; MSG_ERROR]
  /\ elements (fs (snd (process_intent_and_perform_action
                          (env_of (calm "unknown" None)) sample_update "hi" world0)))
     = ["token.json"].
Proof.
  split; [apply (bool_decide_unpack _); vm_compute; reflexivity|].
  split; [reflexivity|]. split; vm_compute; reflexivity.
Qed.

(** C6, amended.  When the label is none of the three action labels,
    the pipeline issues no list, insert or delete request, whatever else
    happens; it authenticates the calendar client first; if that
    succeeds, its one reply is the fixed unsupported-intent message, and
    if it fails the error is raised to the handler. *)
Theorem unknown_intent_issues_no_request env update text w label w1 :
  analyze_intent env text w = (inr label, w1) ->
  label ∉ ACTION_LABELS ->
  cal_log (snd (process_intent_and_perform_action env update text w)) = cal_log w
  /\ match authenticate_google_calendar env w1 with
     | (inr service, w2) =>
         match tg_reply_text env w2 MSG_UNKNOWN with
         | None =>
             process_intent_and_perform_action env update text w
             = (inr tt, push_outbox MSG_UNKNOWN w2)
         | Some e =>
             process_intent_and_perform_action env update text w = (inl e, w2)
         end
     | (inl e, w2) =>
         process_intent_and_perform_action env update text w = (inl e, w2)
     end.
Proof.
  intros Hintent Hlabel.
  unfold process_intent_and_perform_action, bind. rewrite Hintent.
  apply analyze_intent_same_cal_log in Hintent.
  destruct (authenticate_google_calendar env w1) as [[e|service] w2] eqn:Hauth;
    apply authenticate_same_cal_log in Hauth.
  - split; [cbn; congruence | reflexivity].
  - rewrite (perform_action_unknown env update service label Hlabel).
    unfold reply_text.
    destruct (tg_reply_text env w2 MSG_UNKNOWN);
      (split; [cbn; congruence | reflexivity]).
Qed.

Lemma unknown_intent_issues_no_request_witness :
  cal_log (snd (process_intent_and_perform_action (env_of (calm "No idea." None))
                  sample_update "hi" world0)) = cal_log world0.
Proof.
  refine (proj1 (unknown_intent_issues_no_request (env_of (calm "No idea." None))
                   sample_update "hi" world0 "no idea." world0 _ _)).
  - reflexivity.
  - apply (bool_decide_unpack _). vm_compute. reflexivity.
Defined.

(** ** Error containment *)

Lemma frames_weaken {S A} (R R' : relation S) (m : M S A) :
  (forall s s', R s s' -> R' s s') -> frames R m -> frames R' m.
Proof. intros Hsub Hm s r s' Hrun. eapply Hsub, Hm, Hrun. Qed.

Lemma reply_events_same_cal_log env events :
  frames same_cal_log (reply_events env events).
Proof.
  induction events as [|e rest IH]; cbn [reply_events];
    frames_tac ltac:(reflexivity).
Qed.

Ltac cal_log_side :=
  first [ exists []; cbn; symmetry; apply app_nil_r
        | eexists; reflexivity ].

Lemma process_cal_log_grows env update text :
  frames cal_log_grows (process_intent_and_perform_action env update text).
Proof.
  pose proof (fun events =>
    frames_weaken same_cal_log cal_log_grows (reply_events env events)
      (fun s s' H => ex_intro _ [] (eq_trans H (eq_sym (app_nil_r _))))
      (reply_events_same_cal_log env events)) as Hre.
  frames_tac cal_log_side.
Qed.

Lemma handle_text_body_cal_log_grows env update :
  frames cal_log_grows (handle_text_body env update).
Proof.
  pose proof (process_cal_log_grows env update) as Hp.
  unfold handle_text_body.
  apply frames_bind; [typeclasses eauto | | intros ?; apply Hp].
  apply frames_reply_text; [typeclasses eauto | intros ?; cal_log_side].
Qed.

Lemma transcribe_audio_same_cal_log env path :
  frames same_cal_log (transcribe_audio env path).
Proof. frames_tac ltac:(reflexivity). Qed.

Global Instance on_world_preorder R `{!PreOrder R} : PreOrder (on_world R).
Proof.
  split; unfold on_world.
  - intros fw. reflexivity.
  - intros a b c Hab Hbc. etransitivity; eassumption.
Qed.

Lemma frames_lift_snd_world R {A} (m : M World A) :
  frames R m -> frames (on_world R) (lift_snd m).
Proof.
  intros Hm fw r fw'. unfold lift_snd, on_world.
  destruct (m (snd fw)) as [r1 w1] eqn:Hrun. intros [= <- <-].
  cbn. eapply Hm, Hrun.
Qed.

Lemma handle_voice_body_cal_log_grows env update :
  frames (on_world cal_log_grows) (handle_voice_body env update).
Proof.
  pose proof (process_cal_log_grows env update) as Hp.
  assert (Htr : frames cal_log_grows (transcribe_audio env (wav_path update))).
  { eapply frames_weaken; [|apply transcribe_audio_same_cal_log].
    intros s s' H. exists []. rewrite H. symmetry. apply app_nil_r. }
  unfold handle_voice_body, assign_file_path, assign_wav_file_path.
  repeat first
    [ match goal with |- PreOrder _ => typeclasses eauto end
    | apply Hp
    | apply Htr
    | apply frames_lift_snd_world
    | apply frames_bind; [..|intros ?]
    | apply frames_modify; [..|intros ?; unfold on_world; cbn; reflexivity]
    | apply frames_call
    | apply frames_call_write; [..|intros ? ?; cal_log_side]
    | apply frames_reply_text; [..|intros ?; cal_log_side] ].
Qed.

Lemma try_block_cal_log_grows env kind update :
  frames cal_log_grows (try_block env kind update).
Proof.
  destruct kind; cbn [try_block].
  - apply handle_text_body_cal_log_grows.
  - intros w r w1.
    destruct (handle_voice_body env update _) as [r0 fw] eqn:Hrun.
    intros [= <- <-].
    apply handle_voice_body_cal_log_grows in Hrun. exact Hrun.
Qed.

(** C5 fails as stated: the exception of an adapter is caught, but the
    handler does not always return.  The failure reply in the [except]
    block is itself unguarded: when the classifier has failed and the
    transport refuses the failure message, that second exception leaves
    the text handler.  In the voice handler an [os.remove] that raises in
    the [finally] block leaves the handler as well, although the failure
    reply was delivered. *)
Lemma errors_escape_counterexample :
  (let env := with_error_reply_refused (OtherError "NetworkError") (env_of model_down) in
   try_block env TextHandler sample_update world0
   = (inl (OtherError "ResourceExhausted"), push_outbox "Received Text: hi" world0)
   /\ fst (handler env TextHandler sample_update world0)
      = inl (OtherError "NetworkError"))
  /\ (let env := with_locked_storage (OtherError "PermissionError") (env_of model_down) in
      let run := handler env VoiceHandler sample_update world0 in
      fst run = inl (OtherError "PermissionError")
      /\ outbox (snd run)
         = ["Transcribed Text: what is on my calendar today"; MSG_ERROR]).
Proof. vm_compute. repeat split; reflexivity. Qed.

(** C5, amended.  An exception that reaches the boundary of a handler
    from its [try] block, as every exception raised by an adapter does,
    is caught there: the handler logs it and sends the generic failure
    message.  When that reply is delivered and, in the voice handler,
    the removals of the cleanup succeed, the handler returns normally
    with the failure message as its last reply.  The calendar requests
    issued before the error stay issued and none follows: there is no
    rollback. *)
Theorem errors_are_contained env kind update w e w1 :
  try_block env kind update w = (inl e, w1) ->
  tg_reply_text env (push_log (LogError e) w1) MSG_ERROR = None ->
  (kind = VoiceHandler -> removals_ok env) ->
  exists w',
    handler env kind update w = (inr tt, w') /\
    outbox w' = outbox w1 ++ [MSG_ERROR] /\
    logs w' = logs w1 ++ [LogError e] /\
    cal_log w' = cal_log w1 /\
    cal_log_grows w w1.
Proof.
  intros Hbody Hreply Hrm.
  pose proof (try_block_cal_log_grows env kind update _ _ _ Hbody) as Hgrow.
  assert (Herr : on_error env e w1
                 = (inr tt, push_outbox MSG_ERROR (push_log (LogError e) w1))).
  { unfold on_error, bind, logger, modify.
    apply reply_text_delivered, Hreply. }
  destruct kind; cbn [try_block handler] in *.
  - eexists. split.
    { unfold handle_text, try_except. rewrite Hbody. exact Herr. }
    cbn. auto.
  - destruct (handle_voice_body env update _) as [r0 [frame w0]] eqn:Hrun.
    cbn [snd] in Hbody. injection Hbody as -> ->.
    eexists. split.
    { rewrite handle_voice_run. unfold try_except. rewrite Hrun.
      rewrite lift_snd_run, Herr. cbn [fst snd].
      rewrite (cleanup_run env _ _ (Hrm eq_refl)). reflexivity. }
    cbn. auto.
Qed.

Lemma errors_are_contained_witness :
  exists w',
    handler (env_of model_down) TextHandler sample_update world0 = (inr tt, w') /\
    outbox w' = ["Received Text: hi"; MSG_ERROR].
Proof.
  destruct (errors_are_contained (env_of model_down) TextHandler sample_update
              world0 (OtherError "ResourceExhausted")
              (push_outbox "Received Text: hi" world0))
    as (w' & Hrun & Hout & _).
  - reflexivity.
  - reflexivity.
  - discriminate.
  - exists w'. split; [exact Hrun | exact Hout].
Defined.

(** The insert was issued when the calendar refused it; the handler
    reports the failure and leaves the request log as it is. *)
Example insert_refused_run :
  let w' := snd (handle_voice (env_of insert_refused) sample_update world0) in
  outbox w' = ["Transcribed Text: book a meeting"; MSG_ERROR]
  /\ length (cal_log w') = 1
  /\ fst (handle_voice (env_of insert_refused) sample_update world0) = inr tt.
Proof. vm_compute. auto. Qed.

(** Adapter errors reach the boundary of the text handler. *)
Lemma adapter_error_reaches_boundary env update w e w1 :
  tg_reply_text env w ("Received Text: " +:+ message_text update) = None ->
  process_intent_and_perform_action env update (message_text update)
    (push_outbox ("Received Text: " +:+ message_text update) w) = (inl e, w1) ->
  try_block env TextHandler update w = (inl e, w1).
Proof.
  intros Hecho Hproc. cbn [try_block]. unfold handle_text_body, bind.
  rewrite (reply_text_delivered _ _ _ Hecho). exact Hproc.
Qed.

(** An error of the classifier is raised by the pipeline as it is, before
    any calendar request. *)
Lemma classifier_error_is_raised env update text w e :
  model_generate_content env w (intent_prompt text) = inl e ->
  process_intent_and_perform_action env update text w = (inl e, w).
Proof.
  intros H. unfold process_intent_and_perform_action, analyze_intent, bind, call.
  rewrite H. reflexivity.
Qed.

(** ** The replies to a text event *)

Lemma emits_weaken {A} (ok ok' err err' : list string -> Prop) (m : M World A) :
  (forall l, ok l -> ok' l) -> (forall l, err l -> err' l) ->
  emits ok err m -> emits ok' err' m.
Proof.
  intros Hok Herr Hm w r w1 Hrun.
  destruct (Hm w r w1 Hrun) as (l & Hout & Hl).
  exists l. split; [exact Hout|]. destruct r; auto.
Qed.

Lemma emits_bind_silent {A B} (ok err : list string -> Prop)
    (m : M World A) (k : A -> M World B) :
  frames same_outbox m -> err [] ->
  (forall a, emits ok err (k a)) ->
  emits ok err (bind m k).
Proof.
  intros Hm Herr Hk w r w1. unfold bind.
  destruct (m w) as [[e|a] w0] eqn:Hrun; apply Hm in Hrun; unfold same_outbox in Hrun.
  - intros [= <- <-]. exists []. rewrite app_nil_r. auto.
  - intros Hrest. destruct (Hk a w0 r w1 Hrest) as (l & Hout & Hl).
    exists l. rewrite Hout, Hrun. auto.
Qed.

Lemma emits_reply_text env (ok err : list string -> Prop) msg :
  transport_ok env -> ok [msg] -> emits ok err (reply_text env msg).
Proof.
  intros Htr Hok w r w1. rewrite (reply_text_delivered env msg w (Htr _ _)).
  intros [= <- <-]. exists [msg]. auto.
Qed.

Lemma emits_bind_silent_run {A B} (ok err : list string -> Prop)
    (m : M World A) (k : A -> M World B) :
  frames same_outbox m -> err [] ->
  (forall a w w', m w = (inr a, w') -> emits ok err (k a)) ->
  emits ok err (bind m k).
Proof.
  intros Hm Herr Hk w r w1. unfold bind.
  destruct (m w) as [[e|a] w0] eqn:Hrun; pose proof (Hm _ _ _ Hrun) as Hsame;
    unfold same_outbox in Hsame.
  - intros [= <- <-]. exists []. rewrite app_nil_r. auto.
  - intros Hrest. destruct (Hk a w w0 Hrun w0 r w1 Hrest) as (l & Hout & Hl).
    exists l. rewrite Hout, Hsame. auto.
Qed.

(** With a working transport the loop sends one line per event, in
    order; if it raises, the lines sent are those of the events before
    the one it stopped at. *)
Lemma emits_reply_events env events :
  transport_ok env ->
  emits (fun l => Forall2 listed_as events l)
        (fun l => exists shown rest,
                    events = shown ++ rest /\ rest <> [] /\
                    Forall2 listed_as shown l)
        (reply_events env events).
Proof.
  intros Htr. induction events as [|ev rest IH]; intros w r w1; cbn [reply_events].
  - intros [= <- <-]. exists []. rewrite app_nil_r. split; [reflexivity | constructor].
  - unfold bind, getitem.
    destruct (ev_start ev) as [st|] eqn:Hst; cbn;
      [|intros [= <- <-]; exists []; rewrite app_nil_r; split; [reflexivity|];
        exists [], (ev :: rest); repeat split; [discriminate | constructor]].
    destruct (ev_summary ev) as [sm|] eqn:Hsm; cbn;
      [|intros [= <- <-]; exists []; rewrite app_nil_r; split; [reflexivity|];
        exists [], (ev :: rest); repeat split; [discriminate | constructor]].
    rewrite (reply_text_delivered env _ w (Htr _ _)).
    intros Hrest. destruct (IH _ _ _ Hrest) as (l & Hout & Hl).
    eexists (_ :: l). split.
    + rewrite Hout. cbn. rewrite <- app_assoc. reflexivity.
    + assert (Hline : listed_as ev
                (event_line match st_dateTime st with
                            | Some d => Some d
                            | None => st_date st
                            end sm)).
      { exists st, sm. split; [exact Hst|]. split; [exact Hsm|].
        apply event_line_written_out. }
      destruct r as [e|u].
      * destruct Hl as (shown & rest' & -> & Hne & Hshown).
        exists (ev :: shown), rest'. repeat split; [exact Hne|].
        constructor; assumption.
      * constructor; assumption.
Qed.

Lemma analyze_intent_same_outbox env text :
  frames same_outbox (analyze_intent env text).
Proof. frames_tac ltac:(reflexivity). Qed.

Lemma authenticate_same_outbox env :
  frames same_outbox (authenticate_google_calendar env).
Proof. frames_tac ltac:(reflexivity). Qed.

Lemma create_event_same_outbox env service summary t1 t2 attendees :
  frames same_outbox (create_event env service summary t1 t2 attendees).
Proof. frames_tac ltac:(reflexivity). Qed.

Lemma delete_event_same_outbox env service event_id :
  frames same_outbox (delete_event env service event_id).
Proof. frames_tac ltac:(reflexivity). Qed.

Lemma datetime_utcnow_same_outbox env :
  frames same_outbox (datetime_utcnow env).
Proof. frames_tac ltac:(reflexivity). Qed.

(** What the pipeline replies: a well-formed tail when it returns, and
    only the first lines of a listing before it raises. *)
Lemma process_emits env update text :
  transport_ok env ->
  emits (reply_tail env) (partial_listing env)
    (process_intent_and_perform_action env update text).
Proof.
  intros Htr. unfold process_intent_and_perform_action.
  apply emits_bind_silent; [apply analyze_intent_same_outbox | left; reflexivity |].
  intros intent.
  apply emits_bind_silent; [apply authenticate_same_outbox | left; reflexivity |].
  intros service. unfold perform_action.
  destruct (String.eqb intent "list_events").
  { apply emits_bind_silent_run;
      [apply list_today_events_same_outbox | left; reflexivity |].
    intros events w w' Hrun.
    assert (Hof : listing_of env events) by (exists service, w, w'; exact Hrun).
    destruct events as [|ev rest]; unfold reply_listing.
    - apply emits_reply_text; [exact Htr | apply tail_no_events, Hof].
    - eapply emits_weaken; [| |apply emits_reply_events, Htr].
      + intros l Hl. apply (tail_listing env (ev :: rest)); [exact Hof | discriminate | exact Hl].
      + intros l (shown & rest' & Heq & Hne & Hshown). right.
        exists (ev :: rest), shown, rest'. auto. }
  destruct (String.eqb intent "create_event").
  { cbv zeta.
    apply emits_bind_silent; [apply datetime_utcnow_same_outbox | left; reflexivity |].
    intros t1.
    apply emits_bind_silent; [apply datetime_utcnow_same_outbox | left; reflexivity |].
    intros t2.
    apply emits_bind_silent; [apply create_event_same_outbox | left; reflexivity |].
    intros _. apply emits_reply_text; [exact Htr | apply tail_created]. }
  destruct (String.eqb intent "delete_event").
  { cbv zeta.
    apply emits_bind_silent; [apply delete_event_same_outbox | left; reflexivity |].
    intros _. apply emits_reply_text; [exact Htr | apply tail_deleted]. }
  apply emits_reply_text; [exact Htr | apply tail_unknown].
Qed.

Lemma reply_tail_nonempty env l : reply_tail env l -> l <> [].
Proof.
  intros Hl. destruct Hl as [| events lines _ Hne Hall | | | |lines _];
    try discriminate.
  - intros ->. inversion Hall; subst. contradiction.
  - intros Heq. apply app_eq_nil in Heq as [_ Heq]. discriminate Heq.
Qed.

(** C1 fails as stated: the text handler first acknowledges the text,
    then answers; a text of unknown intent gets two replies, a listing
    of two events three. *)
Lemma one_reply_per_text_event_counterexample :
  outbox (snd (handle_text (env_of (calm "unknown" None)) sample_update world0))
  = ["Received Text: hi"; MSG_UNKNOWN]
  /\ length (outbox (snd (handle_text (env_of (calm "unknown" None))
                            sample_update world0))) <> 1
  /\ outbox (snd (handle_text (env_of (calm "list_events" (Some [standup; holiday])))
                    sample_update world0))
     = ["Received Text: hi"; "2026-11-03T09:00:00Z - Standup"; "2026-11-03 - Holiday"].
Proof. vm_compute. repeat split; discriminate. Qed.

(** C1, amended.  For every inbound text event whose replies the
    transport delivers, the handler returns normally and has sent the
    acknowledgement ["Received Text: ..."] followed by a non-empty tail
    that is one of: the no-events message, when the calendar adapter
    returned no event; one line per event the adapter returned, in
    order, each [start - summary]; a confirmation; the unsupported-intent
    message; or the generic error message, after nothing or after the
    lines of the first events of a listing that has more. *)
Theorem text_event_replies env update w :
  transport_ok env ->
  exists w' tail,
    handle_text env update w = (inr tt, w') /\
    outbox w' = outbox w ++ ("Received Text: " +:+ message_text update) :: tail /\
    reply_tail env tail /\ tail <> [].
Proof.
  intros Htr.
  unfold handle_text, try_except, handle_text_body, bind.
  rewrite (reply_text_delivered env _ w (Htr _ _)).
  destruct (process_intent_and_perform_action env update (message_text update) _)
    as [[e|[]] w1] eqn:Hrun;
    destruct (process_emits env update _ Htr _ _ _ Hrun) as (l & Hout & Hl);
    cbn [outbox push_outbox] in Hout.
  - unfold on_error, bind, logger, modify.
    rewrite (reply_text_delivered env _ _ (Htr _ _)).
    eexists _, (l ++ [MSG_ERROR]). split; [reflexivity|].
    split; [|split].
    + cbn. rewrite Hout, <- !app_assoc. reflexivity.
    + apply tail_error, Hl.
    + intros H. apply app_eq_nil in H as [_ H]. discriminate H.
  - exists w1, l. split; [reflexivity|]. split; [|split].
    + rewrite Hout, <- app_assoc. reflexivity.
    + exact Hl.
    + eapply reply_tail_nonempty, Hl.
Qed.

Lemma text_event_replies_witness :
  exists w' tail,
    handle_text (env_of (calm "delete_event" None)) sample_update world0 = (inr tt, w') /\
    outbox w' = outbox world0 ++ ("Received Text: " +:+ message_text sample_update) :: tail /\
    reply_tail (env_of (calm "delete_event" None)) tail /\ tail <> [].
Proof.
  apply (text_event_replies (env_of (calm "delete_event" None)) sample_update world0).
  apply transport_ok_env_of. reflexivity.
Defined.

(** * Further properties of the code *)

(** ** Authentication *)

Global Instance only_storage_differs_preorder : PreOrder only_storage_differs.
Proof.
  split; unfold only_storage_differs.
  - intros w. auto.
  - intros a b c (H1 & H2 & H3 & H4) (H5 & H6 & H7 & H8).
    repeat split; congruence.
Qed.

Global Instance storage_gains_preorder allowed : PreOrder (storage_gains allowed).
Proof.
  split; unfold storage_gains.
  - intros w. set_solver.
  - intros a b c [H1 H2] [H3 H4]. set_solver.
Qed.

Lemma write_existing_file path w :
  path ∈ fs w -> set_fs (fun f => {[path]} ∪ f) w = w.
Proof. intros H. apply set_fs_id. set_solver. Qed.

(** X1.  With a token file that holds valid credentials, authentication
    builds the client from them and does nothing else: its outcome is
    that of building the client, whatever a refresh, the interactive
    flow or a write of the token file would do, so none of them is
    attempted. *)
Theorem stored_valid_token_is_used env w c :
  "token.json" ∈ fs w ->
  Credentials_from_authorized_user_file env w "token.json" SCOPES = inr c ->
  valid c = true ->
  authenticate_google_calendar env w = (build env w "calendar" "v3" c, w).
Proof.
  intros Htok Hload Hvalid.
  unfold authenticate_google_calendar, bind, os_path_exists, call, ret.
  rewrite (bool_decide_eq_true_2 _ Htok), Hload, Hvalid. reflexivity.
Qed.

Lemma stored_valid_token_is_used_witness :
  authenticate_google_calendar (env_of (calm "unknown" None)) world_with_token
  = (inr (mkService fresh_creds), world_with_token).
Proof.
  apply (stored_valid_token_is_used (env_of (calm "unknown" None))
           world_with_token fresh_creds).
  - apply (bool_decide_unpack _). vm_compute. reflexivity.
  - reflexivity.
  - reflexivity.
Defined.

(** X2.  Stored credentials that are invalid, but expired with a refresh
    token, are refreshed without the interactive flow; the token file is
    then rewritten, and only when that write succeeds is the client
    built, from the refreshed credentials; a failed refresh or a failed
    write is raised. *)
Theorem expired_token_is_refreshed env w c :
  "token.json" ∈ fs w ->
  Credentials_from_authorized_user_file env w "token.json" SCOPES = inr c ->
  valid c = false -> expired c = true ->
  is_Some (truthy_str (refresh_token c)) ->
  authenticate_google_calendar env w =
  match creds_refresh env w c with
  | inl e => (inl e, w)
  | inr c' =>
      match open_for_write env w "token.json" with
      | IoOk => (build env w "calendar" "v3" c', w)
      | IoFailClean e | IoFailPartial e => (inl e, w)
      end
  end.
Proof.
  intros Htok Hload Hvalid Hexp Hrt.
  unfold authenticate_google_calendar, bind, os_path_exists, call, ret,
    write_file, call_write.
  rewrite (bool_decide_eq_true_2 _ Htok), Hload, Hvalid, Hexp.
  rewrite (bool_decide_eq_true_2 _ Hrt). cbn.
  destruct (creds_refresh env w c) as [e|c']; [reflexivity|].
  destruct (open_for_write env w "token.json");
    rewrite ?(write_existing_file _ _ Htok); reflexivity.
Qed.

Lemma expired_token_is_refreshed_witness :
  authenticate_google_calendar
    (with_stored_creds stale_creds (env_of no_client_secrets)) world_with_token
  = (inr (mkService (mkCreds true false (Some "refresh"))), world_with_token).
Proof.
  apply (expired_token_is_refreshed
           (with_stored_creds stale_creds (env_of no_client_secrets))
           world_with_token stale_creds).
  - apply (bool_decide_unpack _). vm_compute. reflexivity.
  - reflexivity.
  - reflexivity.
  - reflexivity.
  - eexists. reflexivity.
Defined.

(** X3.  Without a token file, authentication runs the interactive
    flow and writes the token file before it builds the client: the
    client is built only when the write succeeded, and the credentials
    are then persisted even if building the client fails; when the flow
    fails nothing is written, and a failed write is raised, leaving at
    most a partial token file. *)
Theorem fresh_credentials_are_persisted env w :
  "token.json" ∉ fs w ->
  authenticate_google_calendar env w =
  match InstalledAppFlow_from_client_secrets_file env w CREDENTIALS_FILE SCOPES with
  | inl e => (inl e, w)
  | inr flow =>
      match flow_run_local_server env w flow 0 with
      | inl e => (inl e, w)
      | inr c =>
          let w1 := set_fs (fun f => {["token.json"]} ∪ f) w in
          match open_for_write env w "token.json" with
          | IoOk => (build env w1 "calendar" "v3" c, w1)
          | IoFailClean e => (inl e, w)
          | IoFailPartial e => (inl e, w1)
          end
      end
  end.
Proof.
  intros Htok.
  unfold authenticate_google_calendar, run_installed_app_flow, bind,
    os_path_exists, call, ret, write_file, call_write.
  rewrite (bool_decide_eq_false_2 _ Htok).
  destruct (InstalledAppFlow_from_client_secrets_file env w _ _) as [e|flow];
    [reflexivity|].
  destruct (flow_run_local_server env w flow 0) as [e|c]; [reflexivity|].
  destruct (open_for_write env w "token.json"); reflexivity.
Qed.

Lemma fresh_credentials_are_persisted_witness :
  authenticate_google_calendar (env_of no_client_secrets) world0
  = (inl (OtherError "FileNotFoundError: credentials.json"), world0).
Proof.
  refine (fresh_credentials_are_persisted (env_of no_client_secrets) world0 _).
  apply (bool_decide_unpack _). vm_compute. reflexivity.
Defined.

Lemma authenticate_outcome env w r w' :
  authenticate_google_calendar env w = (r, w') ->
  (w' = w \/ w' = set_fs (fun f => {["token.json"]} ∪ f) w) /\
  (match r with inr _ => "token.json" ∈ fs w' | inl _ => True end).
Proof.
  unfold authenticate_google_calendar, run_installed_app_flow, bind,
    os_path_exists, call, ret, write_file, call_write.
  destruct (decide ("token.json" ∈ fs w)) as [Htok|Htok].
  - rewrite (bool_decide_eq_true_2 _ Htok).
    destruct (Credentials_from_authorized_user_file env w _ _) as [e|c];
      [intros [= <- <-]; auto|].
    destruct (valid c); cbn [negb].
    { intros [= <- <-]. split; [auto|]. destruct (build env w _ _ c); auto. }
    destruct (expired c && bool_decide (is_Some (truthy_str (refresh_token c)))).
    + destruct (creds_refresh env w c) as [e|c']; [intros [= <- <-]; auto|].
      destruct (open_for_write env w "token.json");
        intros [= <- <-]; (split; [auto|]); try exact I.
      destruct (build env _ _ _ c'); [exact I | cbn; set_solver].
    + destruct (InstalledAppFlow_from_client_secrets_file env w _ _) as [e|flow];
        [intros [= <- <-]; auto|].
      destruct (flow_run_local_server env w flow 0) as [e|c'];
        [intros [= <- <-]; auto|].
      destruct (open_for_write env w "token.json");
        intros [= <- <-]; (split; [auto|]); try exact I.
      destruct (build env _ _ _ c'); [exact I | cbn; set_solver].
  - rewrite (bool_decide_eq_false_2 _ Htok).
    destruct (InstalledAppFlow_from_client_secrets_file env w _ _) as [e|flow];
      [intros [= <- <-]; auto|].
    destruct (flow_run_local_server env w flow 0) as [e|c'];
      [intros [= <- <-]; auto|].
    destruct (open_for_write env w "token.json");
      intros [= <- <-]; (split; [auto|]); try exact I.
    destruct (build env _ _ _ c'); [exact I | cbn; set_solver].
Qed.

(** X4.  A successful authentication always leaves a token file in
    local storage. *)
Theorem authenticated_implies_token_file env w service w' :
  authenticate_google_calendar env w = (inr service, w') ->
  "token.json" ∈ fs w'.
Proof. intros H. apply authenticate_outcome in H as [_ H]. exact H. Qed.

Lemma authenticated_implies_token_file_witness :
  "token.json" ∈
    fs (snd (authenticate_google_calendar (env_of (calm "unknown" None)) world0)).
Proof.
  eapply (authenticated_implies_token_file (env_of (calm "unknown" None)) world0
            (mkService fresh_creds)).
  vm_compute. reflexivity.
Defined.

(** X5.  Whatever its outcome, authentication changes nothing in the
    world but local storage, where it removes nothing and adds at most
    the token file: it sends no reply, issues no calendar request, writes
    no log record and does not read the clock. *)
Theorem authenticate_touches_only_token_file env w r w' :
  authenticate_google_calendar env w = (r, w') ->
  only_storage_differs w w' /\ storage_gains {["token.json"]} w w'.
Proof.
  intros H. apply authenticate_outcome in H as [[->| ->] _].
  - split; reflexivity.
  - split; [repeat split | split; cbn; set_solver].
Qed.

Lemma authenticate_touches_only_token_file_witness :
  let w' := snd (authenticate_google_calendar (env_of (calm "unknown" None))
                   world_with_token) in
  only_storage_differs world_with_token w' /\
  storage_gains {["token.json"]} world_with_token w'.
Proof.
  apply (authenticate_touches_only_token_file (env_of (calm "unknown" None))
           world_with_token _ _ (surjective_pairing _)).
Defined.

(** ** The branches of the dispatcher *)

(** X6.  The delete branch issues exactly one delete request, for the
    placeholder id on the primary calendar; the deletion is logged and
    confirmed only when the service accepted it, and when the service
    refuses, its error is raised with no log record and no reply. *)
Theorem delete_branch_confirms_after_success env update service w :
  let req := ReqDelete "primary" "your_event_id" in
  let w1 := push_cal req w in
  let w2 := push_log (LogEventDeleted "your_event_id") w1 in
  perform_action env update service "delete_event" w =
  match events_delete_execute env w1 service req with
  | Some e => (inl e, w1)
  | None =>
      match tg_reply_text env w2 MSG_DELETED with
      | None => (inr tt, push_outbox MSG_DELETED w2)
      | Some e => (inl e, w2)
      end
  end.
Proof.
  cbn zeta. unfold perform_action. cbn [String.eqb Ascii.eqb Bool.eqb].
  unfold delete_event, bind, issue, modify, call_unit, logger, reply_text.
  destruct (events_delete_execute env _ service _); reflexivity.
Qed.

(** X7.  The create branch issues exactly one insert request, whatever
    the text of the message: the placeholder meeting with its two
    guests, starting one hour after a first reading of the clock and
    ending two hours after a second one; the creation is logged and
    confirmed only when the service accepted it, and when the service
    refuses, its error is raised with no log record and no reply. *)
Theorem create_branch_confirms_after_success env update service w :
  let t1 := utcnow env (clock_reads w) in
  let t2 := utcnow env (S (clock_reads w)) in
  let body :=
    {| body_summary := "Meeting with Team";
       body_start := mkBodyTime (IsoZ (t1 + 3600000000)) "UTC";
       body_end := mkBodyTime (IsoZ (t2 + 7200000000)) "UTC";
       body_attendees := [mkAttendee "guest1@example.com";
                          mkAttendee "guest2@example.com"] |} in
  let req := ReqInsert "primary" body in
  let w1 := push_cal req (tick_clock (tick_clock w)) in
  perform_action env update service "create_event" w =
  match events_insert_execute env w1 service req with
  | inl e => (inl e, w1)
  | inr created =>
      let w2 := push_log (LogEventCreated (htmlLink created)) w1 in
      match tg_reply_text env w2 MSG_CREATED with
      | None => (inr tt, push_outbox MSG_CREATED w2)
      | Some e => (inl e, w2)
      end
  end.
Proof.
  cbn zeta. unfold perform_action. cbn [String.eqb Ascii.eqb Bool.eqb].
  unfold create_event, create_event_body, bind, datetime_utcnow, issue, modify,
    call, logger, reply_text.
  cbn [tick_clock clock_reads Py.truthy_list default map].
  change (timedelta_hours 1) with 3600000000%Z.
  change (timedelta_hours 2) with 7200000000%Z.
  destruct (events_insert_execute env _ service _); reflexivity.
Qed.

(** X8.  When the answer to the list request has no items, or an empty
    list of items, the list branch sends the one reply
    ["No events found for today."]. *)
Theorem empty_listing_reply env update service w answer :
  let t1 := utcnow env (clock_reads w) in
  let t2 := utcnow env (S (clock_reads w)) in
  let req := ReqList "primary" (IsoZ t1) (IsoZ (t2 + 86400000000)) true "startTime" in
  let w1 := push_cal req (tick_clock (tick_clock w)) in
  events_list_execute env w1 service req = inr answer ->
  items answer = None \/ items answer = Some [] ->
  tg_reply_text env w1 MSG_NO_EVENTS = None ->
  perform_action env update service "list_events" w
  = (inr tt, push_outbox MSG_NO_EVENTS w1).
Proof.
  cbn zeta. intros Hans Hitems Hreply.
  unfold perform_action. cbn [String.eqb Ascii.eqb Bool.eqb].
  unfold list_today_events, bind, datetime_utcnow, issue, modify, call.
  cbn [tick_clock clock_reads].
  change (timedelta_days 1) with 86400000000%Z.
  rewrite Hans.
  assert (default [] (items answer) = []) as -> by (destruct Hitems as [-> | ->]; reflexivity).
  cbn. apply reply_text_delivered, Hreply.
Qed.

Lemma empty_listing_reply_witness :
  outbox (snd (perform_action (env_of (calm "list_events" None)) sample_update
                 sample_service "list_events" world0))
  = [MSG_NO_EVENTS].
Proof.
  rewrite (empty_listing_reply (env_of (calm "list_events" None)) sample_update
             sample_service world0 (mkListResponse None)).
  - reflexivity.
  - reflexivity.
  - left. reflexivity.
  - reflexivity.
Defined.

(** X9.  The listing stops at the first event that lacks the [start] or
    the [summary] key: the events before it have been shown, one line
    each, the [KeyError] of the missing key is raised, and nothing is
    sent for that event or the ones after it. *)
Theorem listing_stops_at_malformed_event env good bad rest w :
  transport_ok env ->
  Forall has_keys good ->
  ~ has_keys bad ->
  exists lines w1,
    reply_events env (good ++ bad :: rest) w
    = (inl (KeyError match ev_start bad with
                     | Some _ => "summary"
                     | None => "start"
                     end), w1) /\
    outbox w1 = outbox w ++ lines /\
    Forall2 shown_as good lines.
Proof.
  intros Hok Hgood Hbad. revert w.
  induction Hgood as [|e good [[st Hst] [sm Hsm]] _ IH]; intros w.
  - exists [], w. rewrite app_nil_r. split; [|split; [reflexivity | constructor]].
    cbn [app reply_events]. unfold bind, getitem.
    destruct (ev_start bad) as [st|] eqn:Hst; [|reflexivity].
    destruct (ev_summary bad) as [sm|] eqn:Hsm; [|reflexivity].
    destruct Hbad. split; eauto.
  - cbn [app reply_events]. rewrite Hst, Hsm. unfold bind at 1 2 3, getitem, ret.
    rewrite (reply_text_delivered env _ w (Hok _ _)).
    destruct (IH (push_outbox (event_line (start_text st) sm) w))
      as (lines & w1 & Hrun & Hout & Hshown).
    exists (event_line (start_text st) sm :: lines), w1.
    split; [exact Hrun|]. split.
    + rewrite Hout. cbn. rewrite <- app_assoc. reflexivity.
    + constructor; [|exact Hshown]. exists st, sm. auto.
Qed.

Lemma listing_stops_at_malformed_event_witness :
  exists lines w1,
    reply_events (env_of (calm "list_events" None)) ([standup] ++ untitled :: [holiday])
      world0
    = (inl (KeyError "summary"), w1) /\
    outbox w1 = outbox world0 ++ lines /\
    Forall2 shown_as [standup] lines.
Proof.
  apply (listing_stops_at_malformed_event (env_of (calm "list_events" None))
           [standup] untitled [holiday] world0).
  - apply transport_ok_env_of. reflexivity.
  - repeat constructor; eexists; reflexivity.
  - intros [_ [sm Hsm]]. discriminate Hsm.
Defined.

(** ** Both handlers: requests, exceptions *)

Lemma issues_weaken {A} (P Q : list cal_request -> Prop) (m : M World A) :
  (forall l, P l -> Q l) -> issues P m -> issues Q m.
Proof.
  intros HPQ Hm w r w1 Hrun. destruct (Hm w r w1 Hrun) as (l & Hl & HP). eauto.
Qed.

Lemma issues_silent {A} (P : list cal_request -> Prop) (m : M World A) :
  frames same_cal_log m -> P [] -> issues P m.
Proof.
  intros Hm HP w r w1 Hrun. apply Hm in Hrun. exists [].
  rewrite app_nil_r. auto.
Qed.

Lemma issues_bind_l {A B} (P : list cal_request -> Prop)
    (m : M World A) (k : A -> M World B) :
  frames same_cal_log m -> P [] -> (forall a, issues P (k a)) ->
  issues P (bind m k).
Proof.
  intros Hm HP Hk w r w1. unfold bind.
  destruct (m w) as [[e|a] w0] eqn:Hrun; apply Hm in Hrun; unfold same_cal_log in Hrun.
  - intros [= <- <-]. exists []. rewrite app_nil_r. auto.
  - intros Hrest. destruct (Hk a w0 r w1 Hrest) as (l & Hl & HPl).
    exists l. rewrite Hl, Hrun. auto.
Qed.

Lemma issues_bind_r {A B} (P : list cal_request -> Prop)
    (m : M World A) (k : A -> M World B) :
  issues P m -> (forall a, frames same_cal_log (k a)) ->
  issues P (bind m k).
Proof.
  intros Hm Hk w r w1. unfold bind.
  destruct (m w) as [[e|a] w0] eqn:Hrun;
    destruct (Hm _ _ _ Hrun) as (l & Hl & HPl).
  - intros [= <- <-]. eauto.
  - intros Hrest. apply Hk in Hrest. unfold same_cal_log in Hrest.
    exists l. rewrite Hrest. auto.
Qed.

Lemma reply_text_same_cal_log env msg : frames same_cal_log (reply_text env msg).
Proof. frames_tac ltac:(reflexivity). Qed.

Lemma datetime_utcnow_same_cal_log env : frames same_cal_log (datetime_utcnow env).
Proof. frames_tac ltac:(reflexivity). Qed.

Lemma on_error_same_cal_log env e : frames same_cal_log (on_error env e).
Proof. frames_tac ltac:(reflexivity). Qed.

Lemma reply_listing_same_cal_log env events :
  frames same_cal_log (reply_listing env events).
Proof.
  destruct events; cbn [reply_listing];
    [apply reply_text_same_cal_log | apply reply_events_same_cal_log].
Qed.

Lemma list_today_events_issues env service :
  issues (fun l => length l = 1) (list_today_events env service).
Proof.
  intros w r w1.
  unfold list_today_events, bind, datetime_utcnow, issue, modify, call.
  destruct (events_list_execute env _ service _); intros [= <- <-];
    eexists [_]; split; reflexivity.
Qed.

Lemma create_event_issues env service summary t1 t2 attendees :
  issues (fun l => length l = 1) (create_event env service summary t1 t2 attendees).
Proof.
  intros w r w1.
  unfold create_event, bind, issue, modify, call, logger.
  destruct (events_insert_execute env _ service _); intros [= <- <-];
    eexists [_]; split; reflexivity.
Qed.

Lemma delete_event_issues env service event_id :
  issues (fun l => length l = 1) (delete_event env service event_id).
Proof.
  intros w r w1.
  unfold delete_event, bind, issue, modify, call_unit, logger.
  destruct (events_delete_execute env _ service _); intros [= <- <-];
    eexists [_]; split; reflexivity.
Qed.

Lemma process_issues env update text :
  issues (fun l => length l <= 1)
    (process_intent_and_perform_action env update text).
Proof.
  unfold process_intent_and_perform_action.
  apply issues_bind_l; [apply analyze_intent_same_cal_log | cbn; lia |].
  intros intent.
  apply issues_bind_l; [apply authenticate_same_cal_log | cbn; lia |].
  intros service. unfold perform_action.
  destruct (String.eqb intent "list_events").
  { apply issues_bind_r; [|apply reply_listing_same_cal_log].
    eapply issues_weaken; [|apply list_today_events_issues]. intros l ->. lia. }
  destruct (String.eqb intent "create_event").
  { cbv zeta.
    apply issues_bind_l; [apply datetime_utcnow_same_cal_log | cbn; lia |].
    intros t1.
    apply issues_bind_l; [apply datetime_utcnow_same_cal_log | cbn; lia |].
    intros t2.
    apply issues_bind_r; [|intros _; apply reply_text_same_cal_log].
    eapply issues_weaken; [|apply create_event_issues]. intros l ->. lia. }
  destruct (String.eqb intent "delete_event").
  { cbv zeta.
    apply issues_bind_r; [|intros _; apply reply_text_same_cal_log].
    eapply issues_weaken; [|apply delete_event_issues]. intros l ->. lia. }
  apply issues_silent; [apply reply_text_same_cal_log | cbn; lia].
Qed.

Lemma transcribe_audio_same_world env path : frames eq (transcribe_audio env path).
Proof. frames_tac ltac:(reflexivity). Qed.

Lemma lift_snd_inv {F A} (m : M World A) (f f' : F) w r w' :
  lift_snd m (f, w) = (r, (f', w')) -> m w = (r, w') /\ f' = f.
Proof.
  rewrite lift_snd_run. intros [= <- <- <-]. split; [|reflexivity].
  destruct (m w); reflexivity.
Qed.

(** The [try] block of the voice handler either fails before the
    pipeline, having touched local storage only, or runs the pipeline on
    the transcribed text after a delivered ["Transcribed Text: ..."]. *)
Lemma voice_body_reaches_pipeline env update w r frame w1 :
  handle_voice_body env update (mkFrame None None, w) = (r, (frame, w1)) ->
  (exists e, r = inl e /\ only_storage_differs w w1)
  \/ (exists text w0,
        only_storage_differs w w0 /\
        tg_reply_text env w0 ("Transcribed Text: " +:+ text) = None /\
        process_intent_and_perform_action env update text
          (push_outbox ("Transcribed Text: " +:+ text) w0) = (r, w1)).
Proof.
  unfold handle_voice_body.
  rewrite bind_lift_snd. unfold call at 1.
  destruct (tg_get_file env w (message_voice update)) as [e|file].
  { intros [= <- <- <-]. left. exists e. split; reflexivity. }
  unfold bind at 1, assign_file_path at 1, modify at 1.
  cbn [fst snd file_path wav_file_path].
  rewrite bind_lift_snd. unfold call_write at 1.
  destruct (tg_download_to_drive env w file (oga_path update)) as [|e|e];
    [| intros [= <- <- <-]; left; exists e; split; [reflexivity | repeat split]..].
  unfold bind at 1, assign_wav_file_path at 1, modify at 1.
  cbn [fst snd file_path wav_file_path].
  rewrite bind_lift_snd. unfold call at 1.
  destruct (AudioSegment_from_file env _ (oga_path update) "ogg") as [e|audio];
    [intros [= <- <- <-]; left; exists e; split; [reflexivity | repeat split]|].
  rewrite bind_lift_snd. unfold call_write at 1.
  destruct (AudioSegment_export env _ audio (wav_path update) "wav") as [|e|e];
    [| intros [= <- <- <-]; left; exists e; split; [reflexivity | repeat split]..].
  rewrite bind_lift_snd.
  destruct (transcribe_audio env (wav_path update) _) as [[e|text] w0] eqn:Htr;
    apply transcribe_audio_same_world in Htr; subst w0;
    [intros [= <- <- <-]; left; exists e; split; [reflexivity | repeat split]|].
  rewrite bind_lift_snd. unfold reply_text at 1.
  destruct (tg_reply_text env _ ("Transcribed Text: " +:+ text)) as [e|] eqn:Hrep;
    [intros [= <- <- <-]; left; exists e; split; [reflexivity | repeat split]|].
  intros Hproc. apply lift_snd_inv in Hproc as [Hproc _].
  right. eexists text, _. split; [|split; [exact Hrep | exact Hproc]].
  repeat split.
Qed.

Lemma try_block_issues env kind update :
  issues (fun l => length l <= 1) (try_block env kind update).
Proof.
  destruct kind; cbn [try_block].
  - unfold handle_text_body.
    apply issues_bind_l; [apply reply_text_same_cal_log | cbn; lia |].
    intros _. apply process_issues.
  - intros w r w1.
    destruct (handle_voice_body env update _) as [r0 [frame w0]] eqn:Hrun.
    intros [= <- <-]. cbn [snd].
    apply voice_body_reaches_pipeline in Hrun
      as [(e & _ & (_ & _ & Hcal & _))|(text & wq & (_ & _ & Hcal & _) & _ & Hproc)].
    + exists []. rewrite app_nil_r. split; [exact Hcal | cbn; lia].
    + apply process_issues in Hproc as (l & Hl & Hlen).
      exists l. split; [|exact Hlen]. rewrite Hl. cbn. rewrite Hcal. reflexivity.
Qed.

(** What a handler does around its [try] block: it returns when the
    block returns, and otherwise runs the [except] block; the voice
    handler's cleanup then touches local storage only. *)
Lemma handler_skeleton env kind update w r w' :
  handler env kind update w = (r, w') ->
  exists r0 w0 r1 w1,
    try_block env kind update w = (r0, w0) /\
    match r0 with
    | inr _ => r1 = inr tt /\ w1 = w0
    | inl e => on_error env e w0 = (r1, w1)
    end /\
    only_storage_differs w1 w' /\
    (r = r1 \/
     kind = VoiceHandler /\
     exists e wa p, r = inl e /\ p ∈ fs wa /\ os_remove_error env wa p = Some e).
Proof.
  destruct kind; cbn [handler try_block].
  - unfold handle_text, try_except.
    destruct (handle_text_body env update w) as [[e|[]] w0].
    + intros Herr. exists (inl e), w0, r, w'. repeat split; auto.
    + intros [= <- <-]. exists (inr tt), w0, (inr tt), w0. repeat split; auto.
  - rewrite handle_voice_run. unfold try_except.
    destruct (handle_voice_body env update _) as [rb [f0 w0]].
    assert (Htail : exists r1 f1 w1,
              match rb with
              | inl e => lift_snd (on_error env e) (f0, w0)
              | inr a => (inr a, (f0, w0))
              end = (r1, (f1, w1)) /\
              match rb with
              | inr _ => r1 = inr tt /\ w1 = w0
              | inl e => on_error env e w0 = (r1, w1)
              end).
    { destruct rb as [e|[]].
      - rewrite lift_snd_run. eexists _, _, _. split; [reflexivity|].
        destruct (on_error env e w0); reflexivity.
      - eexists _, _, _. split; [reflexivity|]. auto. }
    destruct Htail as (r1 & f1 & w1 & -> & Htail).
    destruct (cleanup env f1 w1) as [rc w2] eqn:Hc.
    apply cleanup_outcome in Hc as [(A1 & A2 & A3 & A4 & _) Hex].
    intros Hrun. exists rb, w0, r1, w1. split; [reflexivity|].
    split; [exact Htail|].
    destruct rc as [e|u]; injection Hrun as <- <-;
      (split; [repeat split; assumption|]).
    + right. split; [reflexivity|].
      destruct Hex as (wa & p & Hp & He). exists e, wa, p. auto.
    + left. reflexivity.
Qed.

(** X10.  Handling one inbound event, text or voice, issues at most one
    request to the calendar, whatever the outcome. *)
Theorem one_calendar_request_per_event env kind update w r w' :
  handler env kind update w = (r, w') ->
  exists issued, cal_log w' = cal_log w ++ issued /\ length issued <= 1.
Proof.
  intros Hrun.
  apply handler_skeleton in Hrun
    as (r0 & w0 & r1 & w1 & Hbody & Htail & (_ & _ & Hcal & _) & _).
  apply try_block_issues in Hbody as (l & Hl & Hlen).
  exists l. split; [|exact Hlen]. rewrite Hcal, <- Hl.
  destruct r0 as [e|u].
  - apply on_error_same_cal_log in Htail. exact Htail.
  - destruct Htail as [_ ->]. reflexivity.
Qed.

Lemma one_calendar_request_per_event_witness :
  exists issued,
    cal_log (snd (handler (env_of insert_refused) VoiceHandler sample_update world0))
    = cal_log world0 ++ issued /\ length issued <= 1.
Proof.
  apply (one_calendar_request_per_event (env_of insert_refused) VoiceHandler
           sample_update world0 _ _ (surjective_pairing _)).
Defined.

(** X11.  Only two exceptions can leave a handler: the one raised by
    sending the generic failure reply, after the [try] block had raised;
    and, in the voice handler, one raised by [os.remove] on a file that
    exists, in the cleanup. *)
Theorem only_reply_or_cleanup_errors_escape env kind update w e' w' :
  handler env kind update w = (inl e', w') ->
  (exists e w1,
     try_block env kind update w = (inl e, w1) /\
     tg_reply_text env (push_log (LogError e) w1) MSG_ERROR = Some e')
  \/ (kind = VoiceHandler /\
      exists wa p, p ∈ fs wa /\ os_remove_error env wa p = Some e').
Proof.
  intros Hrun.
  apply handler_skeleton in Hrun
    as (r0 & w0 & r1 & w1 & Hbody & Htail & _ & [<-|(Hk & e & wa & p & He & Hp & Hrm)]).
  - left. destruct r0 as [e|u]; [|destruct Htail as [[=] _]].
    exists e, w0. split; [exact Hbody|].
    unfold on_error, bind, logger, modify, reply_text in Htail.
    destruct (tg_reply_text env _ MSG_ERROR) as [e0|]; [|discriminate Htail].
    injection Htail as <- _. reflexivity.
  - right. injection He as ->. split; [exact Hk|]. exists wa, p. auto.
Qed.

Lemma only_reply_or_cleanup_errors_escape_witness :
  (exists e w1,
     try_block (env_of transport_down) TextHandler sample_update world0 = (inl e, w1) /\
     tg_reply_text (env_of transport_down) (push_log (LogError e) w1) MSG_ERROR
     = Some (OtherError "NetworkError"))
  \/ (TextHandler = VoiceHandler /\
      exists wa p, p ∈ fs wa /\
        os_remove_error (env_of transport_down) wa p = Some (OtherError "NetworkError")).
Proof.
  eapply (only_reply_or_cleanup_errors_escape (env_of transport_down) TextHandler
            sample_update world0 (OtherError "NetworkError")).
  vm_compute. reflexivity.
Defined.

(** ** The voice handler *)

Lemma on_error_delivered env e w :
  transport_ok env ->
  on_error env e w = (inr tt, push_outbox MSG_ERROR (push_log (LogError e) w)).
Proof.
  intros Hok. unfold on_error, bind, logger, modify.
  apply reply_text_delivered, Hok.
Qed.

(** X12.  For every voice event whose replies the transport delivers
    and whose cleanup removals succeed, the handler returns normally and
    has sent either the generic error message alone (staging or
    transcription failed), or the acknowledgement
    ["Transcribed Text: ..."] followed by a non-empty tail of the same
    kinds as for a text event: the no-events message, one line per event
    the adapter returned, a confirmation, the unsupported-intent message,
    or the generic error message after nothing or after the first lines
    of a listing. *)
Theorem voice_event_replies env update w :
  transport_ok env ->
  removals_ok env ->
  exists w' replies,
    handle_voice env update w = (inr tt, w') /\
    outbox w' = outbox w ++ replies /\
    (replies = [MSG_ERROR] \/
     exists text tail,
       replies = ("Transcribed Text: " +:+ text) :: tail /\
       reply_tail env tail /\ tail <> []).
Proof.
  intros Hok Hrm.
  destruct (handle_voice env update w) as [r w'] eqn:Hrun.
  apply (handler_skeleton env VoiceHandler) in Hrun
    as (r0 & w0 & r1 & w1 & Hbody & Htail & (_ & Hout & _) & Hr).
  assert (r = r1) as ->.
  { destruct Hr as [Hr|(_ & e & wa & p & _ & _ & He)]; [exact Hr|].
    rewrite Hrm in He. discriminate He. }
  clear Hr. cbn [try_block] in Hbody.
  destruct (handle_voice_body env update _) as [rb [frame wb]] eqn:Hvb.
  cbn [snd] in Hbody. injection Hbody as -> ->.
  apply voice_body_reaches_pipeline in Hvb
    as [(e & -> & (_ & Hout0 & _))|(text & wq & (_ & Houtq & _) & _ & Hproc)].
  - rewrite (on_error_delivered env e w0 Hok) in Htail.
    injection Htail as <- <-.
    exists w', [MSG_ERROR]. split; [reflexivity|]. split; [|left; reflexivity].
    rewrite Hout. cbn. rewrite Hout0. reflexivity.
  - destruct (process_emits env update text Hok _ _ _ Hproc) as (l & Hl & Hshape).
    cbn [outbox push_outbox] in Hl.
    destruct r0 as [e|u].
    + rewrite (on_error_delivered env e w0 Hok) in Htail.
      injection Htail as <- <-.
      exists w', (("Transcribed Text: " +:+ text) :: l ++ [MSG_ERROR]).
      split; [reflexivity|]. split.
      * rewrite Hout. cbn. rewrite Hl, Houtq, <- !app_assoc. reflexivity.
      * right. exists text, (l ++ [MSG_ERROR]). split; [reflexivity|].
        split; [apply tail_error, Hshape|].
        eapply reply_tail_nonempty, tail_error, Hshape.
    + destruct Htail as [-> ->].
      exists w', (("Transcribed Text: " +:+ text) :: l).
      split; [reflexivity|]. split.
      * rewrite Hout, Hl, Houtq, <- app_assoc. reflexivity.
      * right. exists text, l. split; [reflexivity|].
        split; [exact Hshape | eapply reply_tail_nonempty, Hshape].
Qed.

Lemma voice_event_replies_witness :
  exists w' replies,
    handle_voice (env_of mumbled_audio) sample_update world0 = (inr tt, w') /\
    outbox w' = outbox world0 ++ replies /\
    (replies = [MSG_ERROR] \/
     exists text tail,
       replies = ("Transcribed Text: " +:+ text) :: tail /\
       reply_tail (env_of mumbled_audio) tail /\ tail <> []).
Proof.
  apply (voice_event_replies (env_of mumbled_audio) sample_update world0).
  - apply transport_ok_env_of. reflexivity.
  - intros w p. reflexivity.
Defined.

(** X13.  When the attachment of a voice message cannot be fetched, the
    handler consults neither recognizer, classifier nor calendar and
    stages nothing: it logs the error and, the reply being delivered,
    returns with the generic failure message as its only effect. *)
Theorem unfetched_voice_only_reports env update w e :
  tg_get_file env w (message_voice update) = inl e ->
  tg_reply_text env (push_log (LogError e) w) MSG_ERROR = None ->
  handle_voice env update w
  = (inr tt, push_outbox MSG_ERROR (push_log (LogError e) w)).
Proof.
  intros Hget Hreply. rewrite handle_voice_run.
  unfold try_except, handle_voice_body.
  rewrite bind_lift_snd. unfold call at 1. rewrite Hget.
  rewrite lift_snd_run.
  unfold on_error, bind, logger, modify.
  rewrite (reply_text_delivered _ _ _ Hreply). cbn [fst snd].
  rewrite cleanup_missing; [reflexivity|].
  intros p Hp. cbn in Hp. set_solver.
Qed.

Lemma unfetched_voice_only_reports_witness :
  handle_voice (env_of attachment_gone) sample_update world0
  = (inr tt,
     push_outbox MSG_ERROR
       (push_log (LogError (OtherError "BadRequest: file is too big")) world0)).
Proof.
  apply (unfetched_voice_only_reports (env_of attachment_gone) sample_update world0).
  - reflexivity.
  - reflexivity.
Defined.

(** X14.  Audio the recognizer cannot make out is no error for the voice
    handler: once both files are staged, it replies
    ["Transcribed Text: Could not understand audio"] and runs the
    pipeline on that placeholder text. *)
Theorem unintelligible_audio_is_classified env update w file audio a :
  let w1 := set_fs (fun f => {[oga_path update]} ∪ f) w in
  let w2 := staged_world update w in
  tg_get_file env w (message_voice update) = inr file ->
  tg_download_to_drive env w file (oga_path update) = IoOk ->
  AudioSegment_from_file env w1 (oga_path update) "ogg" = inr audio ->
  AudioSegment_export env w1 audio (wav_path update) "wav" = IoOk ->
  sr_record env w2 (wav_path update) = inr a ->
  sr_recognize_google env w2 a = inl UnknownValueError ->
  tg_reply_text env w2 ("Transcribed Text: " +:+ MSG_NOT_UNDERSTOOD) = None ->
  handle_voice_body env update (mkFrame None None, w)
  = lift_snd (process_intent_and_perform_action env update MSG_NOT_UNDERSTOOD)
      (mkFrame (Some (oga_path update)) (Some (wav_path update)),
       push_outbox ("Transcribed Text: " +:+ MSG_NOT_UNDERSTOOD) w2).
Proof.
  cbn zeta. unfold staged_world.
  intros Hget Hdl Hdec Hexp Hrec Hrg Hrep.
  unfold handle_voice_body.
  rewrite bind_lift_snd. unfold call at 1. rewrite Hget.
  unfold bind at 1, assign_file_path at 1, modify at 1.
  cbn [fst snd file_path wav_file_path].
  rewrite bind_lift_snd. unfold call_write at 1. rewrite Hdl.
  unfold bind at 1, assign_wav_file_path at 1, modify at 1.
  cbn [fst snd file_path wav_file_path].
  rewrite bind_lift_snd. unfold call at 1. rewrite Hdec.
  rewrite bind_lift_snd. unfold call_write at 1. rewrite Hexp.
  rewrite bind_lift_snd.
  unfold transcribe_audio at 1, bind at 1, try_except, call at 1 2.
  rewrite Hrec. unfold bind at 1. rewrite Hrg. cbn [ret].
  rewrite bind_lift_snd. rewrite (reply_text_delivered _ _ _ Hrep).
  reflexivity.
Qed.

Lemma unintelligible_audio_is_classified_witness :
  handle_voice_body (env_of mumbled_audio) sample_update (mkFrame None None, world0)
  = lift_snd (process_intent_and_perform_action (env_of mumbled_audio)
                sample_update MSG_NOT_UNDERSTOOD)
      (mkFrame (Some (oga_path sample_update)) (Some (wav_path sample_update)),
       push_outbox ("Transcribed Text: " +:+ MSG_NOT_UNDERSTOOD)
         (staged_world sample_update world0)).
Proof.
  apply (unintelligible_audio_is_classified (env_of mumbled_audio)
           sample_update world0 "file-1" "pcm" "audio"); reflexivity.
Defined.

(** ** Local storage *)

Lemma frames_call_write_gains allowed (o : World -> io_outcome) path :
  path ∈ allowed -> frames (storage_gains allowed) (call_write o path).
Proof.
  intros Hin w r w'. unfold call_write, storage_gains.
  destruct (o w); intros [= <- <-]; cbn; set_solver.
Qed.

Ltac gains_side := unfold storage_gains; cbn; set_solver.

Lemma reply_events_storage_gains env allowed events :
  frames (storage_gains allowed) (reply_events env events).
Proof.
  induction events as [|e rest IH]; cbn [reply_events];
    frames_tac gains_side.
Qed.

Lemma process_storage_gains env allowed update text :
  "token.json" ∈ allowed ->
  frames (storage_gains allowed)
    (process_intent_and_perform_action env update text).
Proof.
  intros Hin. pose proof (reply_events_storage_gains env allowed) as Hre.
  pose proof (frames_call_write_gains allowed
                (fun w => open_for_write env w "token.json") "token.json" Hin) as Hw.
  frames_tac gains_side.
Qed.

Lemma on_error_storage_gains env allowed e :
  frames (storage_gains allowed) (on_error env e).
Proof. frames_tac gains_side. Qed.

(** X15.  Whatever its outcome, handling a text event removes nothing
    from local storage and adds at most the token file. *)
Theorem text_handler_storage env update w r w' :
  handle_text env update w = (r, w') ->
  storage_gains {["token.json"]} w w'.
Proof.
  revert w r w'. change (frames (storage_gains {["token.json"]}) (handle_text env update)).
  pose proof (process_storage_gains env {["token.json"]} update) as Hp.
  pose proof (on_error_storage_gains env {["token.json"]}) as He.
  unfold handle_text, handle_text_body.
  apply frames_try_except; [typeclasses eauto | | exact He].
  apply frames_bind; [typeclasses eauto | | intros _; apply Hp; set_solver].
  apply frames_reply_text; [typeclasses eauto | intros ?; gains_side].
Qed.

Lemma text_handler_storage_witness :
  storage_gains {["token.json"]} world0
    (snd (handle_text (env_of (calm "create_event" None)) sample_update world0)).
Proof.
  apply (text_handler_storage (env_of (calm "create_event" None)) sample_update
           world0 _ _ (surjective_pairing _)).
Defined.

Lemma voice_try_storage_gains env update :
  frames (on_world (storage_gains
            {[oga_path update; wav_path update; "token.json"]}))
    (try_except (handle_voice_body env update)
       (fun e => lift_snd (on_error env e))).
Proof.
  set (allowed := ({[oga_path update; wav_path update; "token.json"]} : gset string)).
  pose proof (process_storage_gains env allowed update) as Hp.
  assert (Htr : frames (storage_gains allowed) (transcribe_audio env (wav_path update))).
  { frames_tac gains_side. }
  apply frames_try_except; [typeclasses eauto | |].
  - unfold handle_voice_body, assign_file_path, assign_wav_file_path.
    repeat first
      [ match goal with |- PreOrder _ => typeclasses eauto end
      | apply Hp; subst allowed; set_solver
      | apply Htr
      | apply frames_lift_snd_world
      | apply frames_bind; [..|intros ?]
      | apply frames_modify; [..|intros ?; unfold on_world; cbn; reflexivity]
      | apply frames_call
      | apply frames_call_write_gains; subst allowed; set_solver
      | apply frames_reply_text; [..|intros ?; gains_side] ].
  - intros e. apply frames_lift_snd_world, on_error_storage_gains.
Qed.

(** X16.  Whatever its outcome, handling a voice event keeps every
    other file of local storage and leaves no new file behind except,
    possibly, the token file: apart from its two staging paths, a path
    is in storage afterwards exactly if it was before or is the token
    file written by authentication. *)
Theorem voice_handler_storage env update w r w' p :
  handle_voice env update w = (r, w') ->
  p <> oga_path update -> p <> wav_path update ->
  (p ∈ fs w -> p ∈ fs w') /\
  (p ∈ fs w' -> p ∈ fs w \/ p = "token.json").
Proof.
  rewrite handle_voice_run.
  destruct (try_except _ _ _) as [r0 [frame w1]] eqn:Htry.
  destruct (cleanup env frame w1) as [rc w2] eqn:Hc.
  apply cleanup_outcome in Hc as [(_ & _ & _ & _ & Hsub & Hleft) _].
  intros Hrun Hoga Hwav.
  assert (w' = w2) as -> by (destruct rc; injection Hrun as _ <-; reflexivity).
  pose proof (voice_try_storage_gains env update _ _ _ Htry) as [Hkeep Hgain].
  cbn [snd] in Hkeep, Hgain.
  apply voice_try_outcome in Htry.
  assert (Hps : path_set (file_path frame) ∪ path_set (wav_file_path frame)
                ⊆ {[oga_path update; wav_path update]}).
  { destruct Htry as [(_ & -> & _)|[(_ & -> & _)| ->]];
      cbn [file_path wav_file_path]; rewrite ?path_set_oga, ?path_set_wav;
      unfold path_set; cbn [truthy_str]; set_solver. }
  split; intros Hp.
  - apply Hleft. set_solver.
  - apply Hsub, Hgain in Hp. set_solver.
Qed.

Lemma voice_handler_storage_witness :
  let w' := snd (handle_voice (env_of (calm "unknown" None)) sample_update
                   world_with_token) in
  ("token.json" ∈ fs world_with_token -> "token.json" ∈ fs w') /\
  ("token.json" ∈ fs w' -> "token.json" ∈ fs world_with_token \/ "token.json" = "token.json").
Proof.
  apply (voice_handler_storage (env_of (calm "unknown" None)) sample_update
           world_with_token _ _ "token.json" (surjective_pairing _)).
  - cbn. unfold Py.path_join. discriminate.
  - cbn. unfold Py.path_join. discriminate.
Defined.

(** X17.  When the classifier fails on a text event, nothing else is
    attempted: no authentication, no calendar request; the handler logs
    the error, and with the replies delivered the user gets the
    acknowledgement and the generic failure message. *)
Theorem classifier_failure_on_text env update w e :
  let echo := "Received Text: " +:+ message_text update in
  let w1 := push_outbox echo w in
  tg_reply_text env w echo = None ->
  model_generate_content env w1 (intent_prompt (message_text update)) = inl e ->
  tg_reply_text env (push_log (LogError e) w1) MSG_ERROR = None ->
  handle_text env update w
  = (inr tt, push_outbox MSG_ERROR (push_log (LogError e) w1)).
Proof.
  cbn zeta. intros Hecho Hmodel Hreply.
  unfold handle_text, try_except, handle_text_body, bind at 1.
  rewrite (reply_text_delivered _ _ _ Hecho).
  unfold process_intent_and_perform_action, analyze_intent, bind, call.
  rewrite Hmodel.
  unfold on_error, bind, logger, modify.
  apply reply_text_delivered, Hreply.
Qed.

Lemma classifier_failure_on_text_witness :
  handle_text (env_of model_down) sample_update world0
  = (inr tt,
     push_outbox MSG_ERROR
       (push_log (LogError (OtherError "ResourceExhausted"))
          (push_outbox "Received Text: hi" world0))).
Proof.
  apply (classifier_failure_on_text (env_of model_down) sample_update world0);
    reflexivity.
Defined.

(** ** Routing and logging *)

Lemma list_today_events_issues_list env service :
  issues (one_request_for ListEvents) (list_today_events env service).
Proof.
  intros w r w1.
  unfold list_today_events, bind, datetime_utcnow, issue, modify, call.
  destruct (events_list_execute env _ service _); intros [= <- <-];
    eexists [_]; (split; [reflexivity | eexists; split; reflexivity]).
Qed.

Lemma create_event_issues_insert env service summary t1 t2 attendees :
  issues (one_request_for CreateEvent)
    (create_event env service summary t1 t2 attendees).
Proof.
  intros w r w1.
  unfold create_event, bind, issue, modify, call, logger.
  destruct (events_insert_execute env _ service _); intros [= <- <-];
    eexists [_]; (split; [reflexivity | eexists; split; reflexivity]).
Qed.

Lemma delete_event_issues_delete env service event_id :
  issues (one_request_for DeleteEvent) (delete_event env service event_id).
Proof.
  intros w r w1.
  unfold delete_event, bind, issue, modify, call_unit, logger.
  destruct (events_delete_execute env _ service _); intros [= <- <-];
    eexists [_]; (split; [reflexivity | eexists; split; reflexivity]).
Qed.

Lemma issues_after_utcnow {A} env (P : list cal_request -> Prop)
    (k : Z -> M World A) :
  (forall t, issues P (k t)) -> issues P (bind (datetime_utcnow env) k).
Proof.
  intros Hk w r w1. unfold bind, datetime_utcnow. intros Hrest.
  destruct (Hk _ _ _ _ Hrest) as (l & Hl & HP). exists l. auto.
Qed.

(** X21.  For each of the three action labels the dispatcher issues
    exactly one calendar request, of the kind the label names (a list, an
    insert or a delete), whether the service then answers or fails and
    whether the replies are delivered or not. *)
Theorem known_intent_issues_matching_request env update service label w r w' :
  perform_action env update service label w = (r, w') ->
  intent_of label <> Unknown ->
  exists req, cal_log w' = cal_log w ++ [req] /\ request_kind req = intent_of label.
Proof.
  intros Hrun Hknown.
  assert (issues (one_request_for (intent_of label))
            (perform_action env update service label)) as Hiss.
  { unfold perform_action, intent_of in *.
    destruct (String.eqb label "list_events").
    { apply issues_bind_r; [|apply reply_listing_same_cal_log].
      apply list_today_events_issues_list. }
    destruct (String.eqb label "create_event").
    { cbv zeta.
      apply issues_after_utcnow. intros t1.
      apply issues_after_utcnow. intros t2.
      apply issues_bind_r; [|intros _; apply reply_text_same_cal_log].
      apply create_event_issues_insert. }
    destruct (String.eqb label "delete_event"); [|contradiction].
    cbv zeta.
    apply issues_bind_r; [|intros _; apply reply_text_same_cal_log].
    apply delete_event_issues_delete. }
  destruct (Hiss _ _ _ Hrun) as (l & Hl & req & -> & Hkind). eauto.
Qed.

Lemma known_intent_issues_matching_request_witness :
  exists req,
    cal_log (snd (perform_action (env_of insert_refused) sample_update
                    sample_service "create_event" world0))
    = cal_log world0 ++ [req] /\
    request_kind req = intent_of "create_event".
Proof.
  apply (known_intent_issues_matching_request (env_of insert_refused)
           sample_update sample_service "create_event" world0 _ _
           (surjective_pairing _)).
  discriminate.
Defined.

Lemma on_error_logs env e w r w1 :
  on_error env e w = (r, w1) -> logs w1 = logs w ++ [LogError e].
Proof.
  unfold on_error, bind, logger, modify, reply_text.
  destruct (tg_reply_text env _ MSG_ERROR); intros [= <- <-]; reflexivity.
Qed.

(** X22.  A handler adds an error record to the log exactly when its
    [try] block raised, and then exactly one, holding that exception,
    whether or not the failure reply could be sent. *)
Theorem failures_are_logged_once env kind update w r w' r0 w0 :
  handler env kind update w = (r, w') ->
  try_block env kind update w = (r0, w0) ->
  logs w' = logs w0 ++ match r0 with
                       | inl e => [LogError e]
                       | inr _ => []
                       end.
Proof.
  intros Hrun Hbody.
  apply handler_skeleton in Hrun
    as (r1 & w1 & r2 & w2 & Hbody' & Htail & (_ & _ & _ & Hlogs) & _).
  rewrite Hbody in Hbody'. injection Hbody' as <- <-.
  rewrite Hlogs. destruct r0 as [e|u].
  - apply on_error_logs in Htail. exact Htail.
  - destruct Htail as [_ ->]. rewrite app_nil_r. reflexivity.
Qed.

Lemma failures_are_logged_once_witness :
  logs (snd (handler (env_of transport_down) TextHandler sample_update world0))
  = [LogError (OtherError "NetworkError")].
Proof.
  apply (failures_are_logged_once (env_of transport_down) TextHandler
           sample_update world0 _ _ (inl (OtherError "NetworkError")) world0
           (surjective_pairing _)).
  reflexivity.
Defined.
